(** * Playlist downloader: manifest parsing, file naming and the download pool

    A shallow embedding of [download_songs.py] (class [PlaylistDownloader])
    and of the file-name helper of [playlist-txt.py], with the properties of
    its text handling, of the per-track download routine and of the bounded
    worker pool that runs it. *)

From Stdlib Require Import NArith Ascii String.
From stdpp Require Import base list numbers strings.

Local Open Scope N_scope.

(** ** Python strings

    A Python [str] is a sequence of Unicode code points; it is modelled as a
    list of code points.  [py] reads a literal whose characters are all
    ASCII. *)

Abbreviation pystr := (list N).

Definition py (s : string) : pystr :=
  (fun a => Ascii.N_of_ascii a) <$> list_ascii_of_string s.

(** [str.isspace] on one character: the code points CPython classifies as
    whitespace. *)
Definition isspace (c : N) : bool :=
  ((9 <=? c) && (c <=? 13)) || ((28 <=? c) && (c <=? 32))
  || (c =? 0x85) || (c =? 0xA0) || (c =? 0x1680)
  || ((0x2000 <=? c) && (c <=? 0x200A))
  || (c =? 0x2028) || (c =? 0x2029) || (c =? 0x202F)
  || (c =? 0x205F) || (c =? 0x3000).

(** [s.lstrip()], [s.rstrip()] and [s.strip()] without argument. *)
Fixpoint lstrip (s : pystr) : pystr :=
  match s with
  | c :: s' => if isspace c then lstrip s' else s
  | [] => []
  end.

Definition rstrip (s : pystr) : pystr := reverse (lstrip (reverse s)).

Definition strip (s : pystr) : pystr := rstrip (lstrip s).

(** [s.startswith(prefix)]. *)
Fixpoint startswith (s prefix : pystr) {struct prefix} : bool :=
  match prefix, s with
  | [], _ => true
  | p :: prefix', c :: s' => (c =? p) && startswith s' prefix'
  | _ :: _, [] => false
  end.

(** [sub in s]. *)
Fixpoint contains (sub s : pystr) : bool :=
  startswith s sub ||
  match s with
  | [] => false
  | _ :: s' => contains sub s'
  end.

(** [s.split(sep)] for a non-empty separator: the occurrences of [sep] are
    found from the left and do not overlap.  [skip] counts the characters of
    a separator that was just recognised and are still to be passed over;
    [cur] is the current segment, reversed. *)
Fixpoint split_from (sep : pystr) (skip : nat) (cur : pystr) (s : pystr)
  : list pystr :=
  match s with
  | [] => [reverse cur]
  | c :: s' =>
      match skip with
      | S k => split_from sep k cur s'
      | O =>
          if startswith s sep
          then reverse cur :: split_from sep (pred (length sep)) [] s'
          else split_from sep O (c :: cur) s'
      end
  end.

Definition split (s sep : pystr) : list pystr := split_from sep O [] s.

(** [s.replace(old, new)] for a non-empty [old]: every occurrence, from the
    left, without overlap. *)
Fixpoint replace_from (old new : pystr) (skip : nat) (s : pystr) : pystr :=
  match s with
  | [] => []
  | c :: s' =>
      match skip with
      | S k => replace_from old new k s'
      | O =>
          if startswith s old
          then new ++ replace_from old new (pred (length old)) s'
          else c :: replace_from old new O s'
      end
  end.

Definition replace (s old new : pystr) : pystr := replace_from old new O s.

(** Truth value of a string: [if s:] holds for a non-empty string. *)
Definition truthy (s : pystr) : bool :=
  match s with [] => false | _ :: _ => true end.

Definition nl : pystr := [10].

(** ** Tracks and file names *)

Record Track := mkTrack { title : pystr; artists : pystr; album : pystr }.

(** The characters of the class in [_get_safe_filename]'s regular
    expression: less-than, greater-than, colon, double quote, slash,
    backslash, vertical bar, question mark and asterisk. *)
Definition invalid_chars : list N := [60; 62; 58; 34; 47; 92; 124; 63; 42].

(** [re.sub(pattern, '', s)] for that character class: every character of
    the class is deleted. *)
Definition re_sub_invalid (s : pystr) : pystr :=
  filter (fun c => c ∉ invalid_chars) s.

Definition _get_safe_filename (track : Track) : pystr :=
  let unsafe := title track ++ py " - " ++ artists track in
  let safe := re_sub_invalid unsafe in
  safe.

(** [SpotifyPlaylistExporter._sanitize_filename] of [playlist-txt.py]:
    [str.translate] with the table [INVALID_CHARS], which maps slash,
    backslash, question mark, percent, asterisk, colon, vertical bar,
    double quote, less-than and greater-than to a hyphen. *)
Definition INVALID_CHARS : list N := [47; 92; 63; 37; 42; 58; 124; 34; 60; 62].

Definition _sanitize_filename (filename : pystr) : pystr :=
  (fun c => if decide (c ∈ INVALID_CHARS) then 45 else c) <$> filename.

(** ** Paths

    [pathlib] paths on a POSIX system: a root (empty for a relative path,
    one slash, or two slashes) and the list of components. *)

Record Path := mkPath { root : pystr; parts : list pystr }.

Definition slash : N := 47.

Fixpoint leading_slashes (s : pystr) : nat :=
  match s with
  | c :: s' => if c =? slash then S (leading_slashes s') else O
  | [] => O
  end.

(** The components of a string given to the path constructor or to [/]:
    empty components and single dots are dropped. *)
Definition components (s : pystr) : list pystr :=
  filter (fun x => x ≠ [] ∧ x ≠ py ".") (split s [slash]).

(** [p / s]: a segment that starts with a slash replaces the path. *)
Definition div (p : Path) (s : pystr) : Path :=
  match leading_slashes s with
  | O => mkPath (root p) (parts p ++ components s)
  | 2%nat => mkPath (py "//") (components s)
  | _ => mkPath (py "/") (components s)
  end.

Fixpoint join (sep : pystr) (l : list pystr) : pystr :=
  match l with
  | [] => []
  | [x] => x
  | x :: l' => x ++ sep ++ join sep l'
  end.

(** [str(p)]. *)
Definition str (p : Path) : pystr :=
  match root p, parts p with
  | [], [] => py "."
  | r, l => r ++ join [slash] l
  end.

(** [p.name]: the last component, or the empty string. *)
Definition name (p : Path) : pystr := default [] (last (parts p)).

(** [s.rfind('.')]: the index of the last dot, if there is one. *)
Fixpoint rfind_dot (s : pystr) : option nat :=
  match s with
  | [] => None
  | c :: s' =>
      match rfind_dot s' with
      | Some i => Some (S i)
      | None => if c =? 46 then Some O else None
      end
  end.

(** [p.suffix]: the part of the name from its last dot on, unless that dot
    is the first or the last character of the name. *)
Definition suffix (p : Path) : pystr :=
  match rfind_dot (name p) with
  | Some i =>
      if decide (0 < i < pred (length (name p)))%nat then drop i (name p) else []
  | None => []
  end.

Inductive Result (A : Type) : Type :=
| Ok (a : A)
| Raise (e : pystr).
Arguments Ok {A} a.
Arguments Raise {A} e.

(** [p.with_suffix(suffix)] for a suffix that is itself valid (a dot
    followed by characters other than the slash): [ValueError] when the path
    has no name. *)
Definition with_suffix (p : Path) (new_suffix : pystr) : Result Path :=
  match name p with
  | [] => Raise (py "path has an empty name")
  | n =>
      let stem := take (length n - length (suffix p)) n in
      Ok (mkPath (root p) (removelast (parts p) ++ [stem ++ new_suffix]))
  end.

(** ** Effects

    Each line the program prints is recorded as a [message]; the text of
    the f-string is given with its constructor.  An exception is
    represented by its text, the one [{e}] prints; the exceptions of the
    model are instances of [Exception]. *)

Inductive message : Type :=
| ErrorReadingFile (file_name e : pystr)   (* Error reading file {txt_file.name}: {e} *)
| ErrorSearching (track : Track) (e : pystr)    (* Error searching for {track.title}: {e} *)
| AlreadyExists (track : Track)            (* Already exists: {track.title} - {track.artists} *)
| CouldNotFind (track : Track)             (* Could not find video for: {track.title} - {track.artists} *)
| Downloaded (track : Track)               (* Downloaded: {track.title} - {track.artists} *)
| ErrorDownloading (track : Track) (e : pystr)  (* Error downloading {track.title}: {e} *)
| ErrorInProcess (track : Track) (e : pystr)    (* Error in download process for {track.title}: {e} *)
| CouldNotDetermine (txt_file : Path)      (* Could not determine playlist name from {txt_file} *)
| FoundTracks (n : nat) (playlist_name : pystr) (* Found {len(tracks)} tracks in playlist: {playlist_name} *)
| SavedIn (playlist_folder : Path).        (* MP3 files will be saved in: {playlist_folder.absolute()} *)

(** One result of a search: the values of its keys [url] and [id], when it
    has them. *)
Record entry := mkEntry { entry_url : option pystr; entry_id : option pystr }.

(** What [extract_info] returns: [None], or a dictionary that may have the
    key [entries]. *)
Record info := mkInfo { entries : option (list entry) }.

(** A program is a tree of calls to the outside world; each call hands its
    answer to the rest of the program. *)
Inductive prog (A : Type) : Type :=
| Ret (a : A)
| Print (m : message) (k : prog A)
| ReadLines (txt_file : Path) (k : Result (list pystr) -> prog A)
| Exists (p : Path) (k : Result bool -> prog A)
| Mkdir (p : Path) (k : Result () -> prog A)
| NewYoutubeDL (k : Result () -> prog A)
| ExtractInfo (url : pystr) (k : Result (option info) -> prog A)
| Download (outtmpl url : pystr) (k : Result () -> prog A).
Arguments Ret {A} a.
Arguments Print {A} m k.
Arguments ReadLines {A} txt_file k.
Arguments Exists {A} p k.
Arguments Mkdir {A} p k.
Arguments NewYoutubeDL {A} k.
Arguments ExtractInfo {A} url k.
Arguments Download {A} outtmpl url k.

Fixpoint bind {A B} (p : prog A) (f : A -> prog B) : prog B :=
  match p with
  | Ret a => f a
  | Print m k => Print m (bind k f)
  | ReadLines x k => ReadLines x (fun r => bind (k r) f)
  | Exists x k => Exists x (fun r => bind (k r) f)
  | Mkdir x k => Mkdir x (fun r => bind (k r) f)
  | NewYoutubeDL k => NewYoutubeDL (fun r => bind (k r) f)
  | ExtractInfo u k => ExtractInfo u (fun r => bind (k r) f)
  | Download o u k => Download o u (fun r => bind (k r) f)
  end.

(** Code that may raise: a program that returns a value or an exception. *)
Definition M (A : Type) : Type := prog (Result A).

Definition ret {A} (a : A) : M A := Ret (Ok a).
Definition raise {A} (e : pystr) : M A := Ret (Raise e).

Definition bindM {A B} (m : M A) (f : A -> M B) : M B :=
  bind m (fun r => match r with Ok a => f a | Raise e => Ret (Raise e) end).

(** [try: body / except Exception as e: handler]. *)
Definition try_except {A} (body : M A) (handler : pystr -> M A) : M A :=
  bind body (fun r => match r with Ok a => Ret (Ok a) | Raise e => handler e end).

Declare Scope py_scope.
Delimit Scope py_scope with py.
Notation "x <- m ;; k" := (bindM m (fun x => k))
  (at level 100, m at next level, right associativity) : py_scope.
Notation "m ;; k" := (bindM m (fun _ => k))
  (at level 100, right associativity) : py_scope.
Local Open Scope py_scope.

Definition print (m : message) : M () := Print m (Ret (Ok ())).
Definition readlines (txt_file : Path) : M (list pystr) := ReadLines txt_file Ret.
Definition path_exists (p : Path) : M bool := Exists p Ret.
Definition mkdir (p : Path) : M () := Mkdir p Ret.
Definition YoutubeDL : M () := NewYoutubeDL Ret.
Definition extract_info (url : pystr) : M (option info) := ExtractInfo url Ret.
Definition download (outtmpl url : pystr) : M () := Download outtmpl url Ret.
Definition lift {A} (r : Result A) : M A := Ret r.

(** ** [PlaylistDownloader] *)

(** [l[i]], which raises [IndexError] out of range. *)
Definition index {A} (l : list A) (i : nat) : Result A :=
  match l !! i with
  | Some x => Ok x
  | None => Raise (py "list index out of range")
  end.

(** The body of the loop over [lines[5:]] in [_parse_txt_file], as a step
    from the list [tracks] before a line to the list after it. *)
Definition parse_line (tracks : list Track) (line : pystr) : list Track :=
  if truthy (strip line) && contains (py " - ") line then
    let parts := split (strip line) (py " - ") in
    if (length parts =? 3)%nat then
      tracks ++ [mkTrack (nth 0 parts []) (nth 1 parts []) (nth 2 parts [])]
    else tracks
  else tracks.

(** Opening the file, reading it and [lines[0]] are what can raise, all of
    them before [playlist_name] and [tracks] are first assigned: the handler
    returns their initial values. *)
Definition _parse_txt_file (txt_file : Path) : M (pystr * list Track) :=
  let tracks := [] in
  let playlist_name := [] in
  try_except
    (lines <- readlines txt_file ;;
     line0 <- lift (index lines 0) ;;
     let first_line := strip line0 in
     let playlist_name :=
       if startswith first_line (py "Playlist: ")
       then strip (replace first_line (py "Playlist: ") [])
       else playlist_name in
     let tracks := foldl parse_line tracks (drop 5 lines) in
     ret (playlist_name, tracks))
    (fun e =>
       print (ErrorReadingFile (name txt_file) e) ;;
       ret (playlist_name, tracks)).

(** [video.get('url') or f"https://www.youtube.com/watch?v={video['id']}"];
    [video['id']] raises [KeyError] when the key is missing. *)
Definition video_url_of (video : entry) : Result pystr :=
  match entry_url video with
  | Some (c :: u) => Ok (c :: u)
  | _ =>
      match entry_id video with
      | Some i => Ok (py "https://www.youtube.com/watch?v=" ++ i)
      | None => Raise (py "'id'")
      end
  end.

Definition _search_and_get_url (track : Track) : M (option pystr) :=
  let search_query := title track ++ py " " ++ artists track in
  try_except
    (YoutubeDL ;;
     result <- extract_info (py "ytsearch:" ++ search_query) ;;
     match result with
     | Some {| entries := Some (video :: _) |} =>
         url <- lift (video_url_of video) ;;
         ret (Some url)
     | _ => ret None
     end)
    (fun e =>
       print (ErrorSearching track e) ;;
       ret None).

Definition _download_track (track : Track) (playlist_folder : Path) : M () :=
  try_except
    (let safe_filename := _get_safe_filename track in
     let output_path := div playlist_folder (safe_filename ++ py ".mp3") in
     found <- path_exists output_path ;;
     if found : bool then print (AlreadyExists track)
     else
       video_url <- _search_and_get_url track ;;
       match video_url with
       | Some (c :: u) =>
           tmpl <- lift (with_suffix output_path (py ".%(ext)s")) ;;
           let outtmpl := str tmpl in
           YoutubeDL ;;
           try_except
             (download outtmpl (c :: u) ;;
              print (Downloaded track))
             (fun e => print (ErrorDownloading track e))
       | _ => print (CouldNotFind track)
       end)
    (fun e => print (ErrorInProcess track e)).

(** The body of the loop of [process_txt_folder] up to the creation of the
    pool: the manifest is parsed, the playlist folder is made, and the
    folder and the tracks to hand to the pool are returned; [None] stands
    for [continue].  [mkdir] is outside every [try]. *)
Definition process_txt_file (mp3_folder txt_file : Path)
  : M (option (Path * list Track)) :=
  parsed <- _parse_txt_file txt_file ;;
  let '(playlist_name, tracks) := parsed in
  if negb (truthy playlist_name) then
    print (CouldNotDetermine txt_file) ;;
    ret None
  else
    let playlist_folder := div mp3_folder playlist_name in
    mkdir playlist_folder ;;
    print (FoundTracks (length tracks) playlist_name) ;;
    print (SavedIn playlist_folder) ;;
    ret (Some (playlist_folder, tracks)).

(** ** The outside world

    The file system and the search and download provider are a state of
    type [W] with one answer function per call.  The trace records the
    prints and the calls that reach the provider or change the file
    system. *)

Inductive event : Type :=
| EvPrint (m : message)
| EvMkdir (p : Path)
| EvSearch (url : pystr)
| EvDownload (outtmpl url : pystr).

Record Env (W : Type) : Type := mkEnv {
  env_readlines : W -> Path -> Result (list pystr);
  env_exists : W -> Path -> Result bool;
  env_mkdir : W -> Path -> W * Result ();
  env_YoutubeDL : W -> Result ();
  env_extract_info : W -> pystr -> W * Result (option info);
  env_download : W -> pystr -> pystr -> W * Result ()
}.
Arguments mkEnv {W}.
Arguments env_readlines {W}.
Arguments env_exists {W}.
Arguments env_mkdir {W}.
Arguments env_YoutubeDL {W}.
Arguments env_extract_info {W}.
Arguments env_download {W}.

Record state (W : Type) : Type := mkState { world : W; trace : list event }.
Arguments mkState {W}.
Arguments world {W}.
Arguments trace {W}.

Definition emit {W} (s : state W) (w : W) (e : event) : state W :=
  mkState w (trace s ++ [e]).

(** One call: the program after its first call has been answered. *)
Definition step_prog {W A} (E : Env W) (p : prog A) (s : state W)
  : option (prog A * state W) :=
  match p with
  | Ret _ => None
  | Print m k => Some (k, emit s (world s) (EvPrint m))
  | ReadLines f k => Some (k (env_readlines E (world s) f), s)
  | Exists x k => Some (k (env_exists E (world s) x), s)
  | Mkdir x k =>
      let '(w, r) := env_mkdir E (world s) x in Some (k r, emit s w (EvMkdir x))
  | NewYoutubeDL k => Some (k (env_YoutubeDL E (world s)), s)
  | ExtractInfo u k =>
      let '(w, r) := env_extract_info E (world s) u in
      Some (k r, emit s w (EvSearch u))
  | Download o u k =>
      let '(w, r) := env_download E (world s) o u in
      Some (k r, emit s w (EvDownload o u))
  end.

(** A program run to its end with nothing else running. *)
Fixpoint interp {W A} (E : Env W) (p : prog A) (s : state W) : A * state W :=
  match p with
  | Ret a => (a, s)
  | Print m k => interp E k (emit s (world s) (EvPrint m))
  | ReadLines f k => interp E (k (env_readlines E (world s) f)) s
  | Exists x k => interp E (k (env_exists E (world s) x)) s
  | Mkdir x k =>
      let '(w, r) := env_mkdir E (world s) x in interp E (k r) (emit s w (EvMkdir x))
  | NewYoutubeDL k => interp E (k (env_YoutubeDL E (world s))) s
  | ExtractInfo u k =>
      let '(w, r) := env_extract_info E (world s) u in
      interp E (k r) (emit s w (EvSearch u))
  | Download o u k =>
      let '(w, r) := env_download E (world s) o u in
      interp E (k r) (emit s w (EvDownload o u))
  end.

(** ** The worker pool of [process_txt_folder]

    [ThreadPoolExecutor(max_workers=3)]: a queue of submitted work items and
    the worker threads started so far.  A worker is waiting for an item or
    runs one, [asyncio.run(self._download_track(t, playlist_folder))], one
    call at a time.  The calls of different workers interleave. *)

Definition max_workers : nat := 3.

Inductive worker : Type :=
| Idle
| Busy (track : Track) (p : M ()).

Record pool (W : Type) : Type := mkPool {
  to_submit : list Track;
  queue : list Track;
  workers : list worker;
  results : list (Track * Result ());
  shared : state W
}.
Arguments mkPool {W}.
Arguments to_submit {W}.
Arguments queue {W}.
Arguments workers {W}.
Arguments results {W}.
Arguments shared {W}.

(** The moves of the pool.  [Submit spawn]: the list comprehension submits
    the next track; the executor starts a thread for it when no worker is
    waiting and fewer than [max_workers] exist.  Whether a worker counts as
    waiting depends on timing, so both outcomes are allowed, a new thread
    only below the cap.  [Take i]: worker [i] takes the oldest item of the
    queue.  [Call i]: the next call of worker [i] is answered.  [Finish i]:
    the item of worker [i] has returned and its future is resolved. *)
Inductive move : Type :=
| Submit (spawn : bool)
| Take (i : nat)
| Call (i : nat)
| Finish (i : nat).

Definition exec {W} (E : Env W) (playlist_folder : Path) (m : move) (s : pool W)
  : option (pool W) :=
  match m with
  | Submit spawn =>
      match to_submit s with
      | [] => None
      | t :: ts =>
          if spawn then
            if decide (length (workers s) < max_workers)%nat then
              Some (mkPool ts (queue s ++ [t]) (workers s ++ [Idle])
                           (results s) (shared s))
            else None
          else
            if decide (0 < length (workers s))%nat then
              Some (mkPool ts (queue s ++ [t]) (workers s) (results s) (shared s))
            else None
      end
  | Take i =>
      match workers s !! i, queue s with
      | Some Idle, t :: q =>
          Some (mkPool (to_submit s) q
                       (<[i := Busy t (_download_track t playlist_folder)]> (workers s))
                       (results s) (shared s))
      | _, _ => None
      end
  | Call i =>
      match workers s !! i with
      | Some (Busy t p) =>
          match step_prog E p (shared s) with
          | Some (p', st) =>
              Some (mkPool (to_submit s) (queue s) (<[i := Busy t p']> (workers s))
                           (results s) st)
          | None => None
          end
      | _ => None
      end
  | Finish i =>
      match workers s !! i with
      | Some (Busy t (Ret r)) =>
          Some (mkPool (to_submit s) (queue s) (<[i := Idle]> (workers s))
                       (results s ++ [(t, r)]) (shared s))
      | _ => None
      end
  end.

Definition step {W} (E : Env W) (folder : Path) (s s' : pool W) : Prop :=
  exists m, exec E folder m s = Some s'.

Inductive steps {W} (E : Env W) (folder : Path) : pool W -> pool W -> Prop :=
| steps_refl s : steps E folder s s
| steps_step s1 s2 s3 :
    steps E folder s1 s2 -> step E folder s2 s3 -> steps E folder s1 s3.

(** A list of moves played in order. *)
Fixpoint play {W} (E : Env W) (folder : Path) (ms : list move) (s : pool W)
  : option (pool W) :=
  match ms with
  | [] => Some s
  | m :: ms' =>
      match exec E folder m s with
      | Some s' => play E folder ms' s'
      | None => None
      end
  end.

(** The pool when the [with] block is entered. *)
Definition pool_init {W} (tracks : list Track) (s : state W) : pool W :=
  mkPool tracks [] [] [] s.

(** [await asyncio.gather] over the tasks returns once every future is resolved:
    every track is submitted, the queue is empty and no worker runs. *)
Definition is_idle (w : worker) : bool :=
  match w with Idle => true | Busy _ _ => false end.

Definition all_done {W} (s : pool W) : Prop :=
  to_submit s = [] ∧ queue s = [] ∧ forallb is_idle (workers s) = true.

(** [gather] raises the exception of a task that raised. *)
Fixpoint first_exception (rs : list (Track * Result ())) : Result () :=
  match rs with
  | [] => Ok ()
  | (_, Raise e) :: _ => Raise e
  | (_, Ok _) :: rs' => first_exception rs'
  end.

Definition gather {W} (s : pool W) : Result () := first_exception (results s).

Definition is_busy (w : worker) : bool := negb (is_idle w).

(** A worker inside a call to the search and download library. *)
Definition in_call (w : worker) : bool :=
  match w with
  | Busy _ (NewYoutubeDL _) | Busy _ (ExtractInfo _ _) | Busy _ (Download _ _ _) => true
  | _ => false
  end.

Definition busy {W} (s : pool W) : nat := length (List.filter is_busy (workers s)).
Definition in_flight {W} (s : pool W) : nat := length (List.filter in_call (workers s)).

(** The path the file of a track is looked for at and downloaded to. *)
Definition output_path (playlist_folder : Path) (track : Track) : Path :=
  div playlist_folder (_get_safe_filename track ++ py ".mp3").

(** The output template handed to the downloader for a track. *)
Definition output_template (playlist_folder : Path) (track : Track) : pystr :=
  str (div playlist_folder (_get_safe_filename track ++ py ".%(ext)s")).

(** ** A small world to run the program in

    The file system is the list of the paths that exist.  Every manifest
    reads as [manifest]; [mkdir] makes a folder whose parent exists; the
    search index knows the queries of [catalog]; the downloader writes the
    file its output template names, with the extension of the audio format,
    and for a locator in [broken] it raises after it has written the
    file. *)

Abbreviation fs := (list pystr).

Definition parent (p : Path) : Path := mkPath (root p) (removelast (parts p)).

Definition demo_env (manifest : Result (list pystr))
    (catalog : list (pystr * list entry)) (broken : list pystr) : Env fs :=
  mkEnv
    (fun _ _ => manifest)
    (fun w p => Ok (bool_decide (str p ∈ w)))
    (fun w p =>
       if bool_decide (str p ∈ w) then (w, Ok ())
       else if bool_decide (str (parent p) ∈ w) then (str p :: w, Ok ())
       else (w, Raise (py "No such file or directory")))
    (fun _ => Ok ())
    (fun w url =>
       (w, Ok (Some (mkInfo (Some (default []
                (snd <$> find (fun kv => bool_decide (kv.1 = url)) catalog)))))))
    (fun w outtmpl url =>
       let file := replace outtmpl (py "%(ext)s") (py "mp3") in
       (file :: w, if bool_decide (url ∈ broken)
                   then Raise (py "Postprocessing: conversion failed")
                   else Ok ())).

(** The moves that run one track on worker [0] when it takes [n] calls. *)
Definition one_track (spawn : bool) (n : nat) : list move :=
  Submit spawn :: Take 0 :: replicate n (Call 0) ++ [Finish 0].

(** ** Notions used to state the properties *)

(** The rule of the manifest format in the words of its description: a line
    is a track when, once trimmed, it splits at the separator into exactly
    three segments, which are the title, the artists and the album. *)
Definition track_of_line (line : pystr) : option Track :=
  match split (strip line) (py " - ") with
  | [a; b; c] => Some (mkTrack a b c)
  | _ => None
  end.

Definition hyphen : N := 45.

(** The status lines: the five messages with which [_download_track] ends
    the handling of a track, and the track they are about. *)
Definition status (m : message) : option Track :=
  match m with
  | AlreadyExists t | CouldNotFind t | Downloaded t
  | ErrorDownloading t _ | ErrorInProcess t _ => Some t
  | _ => None
  end.

(** The number of status lines in a trace that are about a track selected
    by [sel]. *)
Definition status_weight (sel : Track -> bool) (m : message) : nat :=
  match status m with
  | Some t => if sel t then 1 else 0
  | None => 0
  end.

Definition event_weight (sel : Track -> bool) (e : event) : nat :=
  match e with
  | EvPrint m => status_weight sel m
  | _ => 0
  end.

Definition statuses (sel : Track -> bool) (tr : list event) : nat :=
  sum_list_with (event_weight sel) tr.

Definition everything : Track -> bool := fun _ => true.

Definition is_provider_call (e : event) : bool :=
  match e with
  | EvSearch _ | EvDownload _ _ => true
  | _ => false
  end.

(** [paths wt p post]: on every path through [p], whatever the outside
    world answers, [post n a] holds of the returned value [a] and of the
    summed weight [n] of the messages printed on the way. *)
Fixpoint paths {A} (wt : message -> nat) (p : prog A) (post : nat -> A -> Prop)
  : Prop :=
  match p with
  | Ret a => post O a
  | Print m k => paths wt k (fun n a => post (wt m + n)%nat a)
  | ReadLines _ k => forall r, paths wt (k r) post
  | Exists _ k => forall r, paths wt (k r) post
  | Mkdir _ k => forall r, paths wt (k r) post
  | NewYoutubeDL k => forall r, paths wt (k r) post
  | ExtractInfo _ k => forall r, paths wt (k r) post
  | Download _ _ k => forall r, paths wt (k r) post
  end.

(** Unfolds [paths] over the calls of the program. *)
Ltac paths_cbn :=
  cbn [paths path_exists YoutubeDL extract_info download lift print ret raise].

(** What a worker still owes: it is waiting, or the item it runs returns
    normally after [n] more selected status lines. *)
Definition owes (sel : Track -> bool) (w : worker) (n : nat) : Prop :=
  match w with
  | Idle => n = O
  | Busy _ p => paths (status_weight sel) p (fun k r => r = Ok () ∧ k = n)
  end.

(** [skips E w0 t p]: run in the world [w0], the program [p] only looks at
    the world and prints that the file of [t] is there, and returns
    normally. *)
Fixpoint skips {W} (E : Env W) (w0 : W) (t : Track) (p : M ()) : Prop :=
  match p with
  | Ret r => r = Ok ()
  | Print m k => m = AlreadyExists t ∧ skips E w0 t k
  | ReadLines x k => skips E w0 t (k (env_readlines E w0 x))
  | Exists x k => skips E w0 t (k (env_exists E w0 x))
  | NewYoutubeDL k => skips E w0 t (k (env_YoutubeDL E w0))
  | Mkdir _ _ | ExtractInfo _ _ | Download _ _ _ => False
  end.

Definition skipping {W} (E : Env W) (w0 : W) (w : worker) : Prop :=
  match w with
  | Idle => True
  | Busy t p => skips E w0 t p
  end.

Definition is_skip_print (e : event) : bool :=
  match e with
  | EvPrint (AlreadyExists _) => true
  | _ => false
  end.

(** The number of tracks of a list that [sel] selects. *)
Definition selected (sel : Track -> bool) (l : list Track) : nat :=
  length (List.filter sel l).

(** The books of a pool balance: the selected status lines printed so far,
    those the running items still owe and the selected tracks still to be
    run add up to [total]. *)
Definition balanced {W} (sel : Track -> bool) (total : nat) (s : pool W) : Prop :=
  exists l : list nat,
    Forall2 (owes sel) (workers s) l ∧
    (statuses sel (trace (shared s)) + sum_list l
     + selected sel (queue s) + selected sel (to_submit s) = total)%nat.

(** The four moves, spelled out as a relation. *)
Inductive moved {W} (E : Env W) (folder : Path) (s : pool W)
  : move -> pool W -> Prop :=
| moved_spawn t ts :
    to_submit s = t :: ts -> (length (workers s) < max_workers)%nat ->
    moved E folder s (Submit true)
      (mkPool ts (queue s ++ [t]) (workers s ++ [Idle]) (results s) (shared s))
| moved_submit t ts :
    to_submit s = t :: ts -> (0 < length (workers s))%nat ->
    moved E folder s (Submit false)
      (mkPool ts (queue s ++ [t]) (workers s) (results s) (shared s))
| moved_take i t q :
    workers s !! i = Some Idle -> queue s = t :: q ->
    moved E folder s (Take i)
      (mkPool (to_submit s) q
         (<[i := Busy t (_download_track t folder)]> (workers s))
         (results s) (shared s))
| moved_call i t p p' st :
    workers s !! i = Some (Busy t p) -> step_prog E p (shared s) = Some (p', st) ->
    moved E folder s (Call i)
      (mkPool (to_submit s) (queue s) (<[i := Busy t p']> (workers s))
         (results s) st)
| moved_finish i t r :
    workers s !! i = Some (Busy t (Ret r)) ->
    moved E folder s (Finish i)
      (mkPool (to_submit s) (queue s) (<[i := Idle]> (workers s))
         (results s ++ [(t, r)]) (shared s)).

(** The state of a run that started in the world [w0] with the trace [tr0]
    and in which every track is skipped. *)
Definition skip_run {W} (E : Env W) (w0 : W) (tracks : list Track)
    (tr0 : list event) (s : pool W) : Prop :=
  world (shared s) = w0
  ∧ (exists l, trace (shared s) = tr0 ++ l ∧ forallb is_skip_print l = true)
  ∧ Forall (fun t => t ∈ tracks) (to_submit s)
  ∧ Forall (fun t => t ∈ tracks) (queue s)
  ∧ Forall (skipping E w0) (workers s).

(** The outcome variants of the design, as the status lines announce them.
    The program has no such type: it prints the line and returns [None]. *)
Inductive outcome : Type := Skipped | Fetched | NotFound | FetchFailed.

Definition outcome_of (m : message) : option outcome :=
  match m with
  | AlreadyExists _ => Some Skipped
  | Downloaded _ => Some Fetched
  | CouldNotFind _ => Some NotFound
  | ErrorDownloading _ _ | ErrorInProcess _ _ => Some FetchFailed
  | _ => None
  end.

Definition announces (o : outcome) (e : event) : bool :=
  match e with
  | EvPrint m =>
      match outcome_of m, o with
      | Some Skipped, Skipped | Some Fetched, Fetched
      | Some NotFound, NotFound | Some FetchFailed, FetchFailed => true
      | _, _ => false
      end
  | _ => false
  end.

(** The number of status lines of a trace that announce the outcome [o]. *)
Definition count_outcome (o : outcome) (tr : list event) : nat :=
  length (List.filter (announces o) tr).

(** ** Data for the examples *)

Definition song (n : pystr) : Track :=
  mkTrack (py "Song " ++ n) (py "Artist") (py "Album").

Definition found (n : pystr) : pystr * list entry :=
  (py "ytsearch:Song " ++ n ++ py " Artist",
   [mkEntry None (Some (py "id" ++ n)); mkEntry (Some (py "second")) None]).

Definition test_folder : Path := mkPath [] [py "mp3"; py "Test"].

(** Five tracks, the third of which the search index does not know. *)
Definition five_tracks : list Track :=
  [song (py "1"); song (py "2"); song (py "3"); song (py "4"); song (py "5")].

Definition four_found : list (pystr * list entry) :=
  [found (py "1"); found (py "2"); found (py "4"); found (py "5")].

(** A run of the five tracks on three workers: the first three tracks are
    taken and their calls interleave; the worker of the third track is
    free first and takes the fourth; the fifth is run last. *)
Definition five_schedule : list move :=
  [Submit true; Submit true; Submit true; Take 0; Take 1; Take 2;
   Submit false; Submit false]
  ++ mjoin (replicate 4 [Call 0; Call 1; Call 2])
  ++ [Finish 2; Take 2]
  ++ mjoin (replicate 2 [Call 0; Call 1; Call 2])
  ++ [Finish 0; Finish 1; Take 0]
  ++ replicate 4 (Call 2) ++ [Finish 2]
  ++ replicate 6 (Call 0) ++ [Finish 0].

(** A manifest with one well-formed track line, a line of two segments and
    a line of four. *)
Definition test_manifest : list pystr :=
  [py "Playlist: Test" ++ nl; py "Owner: X" ++ nl; py "Privacy: Public" ++ nl;
   py "Tracks: 3" ++ nl; nl;
   py "Song A - Artist B - Album C" ++ nl;
   py "Only - Two" ++ nl;
   py "One - Two - Three - Four" ++ nl].

Definition nested_manifest : list pystr :=
  [py "Playlist: AC/DC" ++ nl; py "Owner: X" ++ nl; py "Privacy: Public" ++ nl;
   py "Tracks: 0" ++ nl; nl].

(** ** More of the two programs *)

(** [Track.__str__]: the line of a track in a manifest. *)
Definition Track_str (t : Track) : pystr :=
  title t ++ py " - " ++ artists t ++ py " - " ++ album t.

(** The loop of [process_txt_folder] over the manifests, one after the
    other: a manifest without a playlist name is passed over; an exception
    of [mkdir] (or of [gather]) leaves the loop; otherwise the pool runs
    the tracks of the manifest to the end before the next manifest is
    read.  The result is [Ok] when the loop ends and the exception that
    left it otherwise. *)
Inductive folder_run {W} (E : Env W) (mp3_folder : Path)
  : list Path -> state W -> Result () -> state W -> Prop :=
| folder_done st :
    folder_run E mp3_folder [] st (Ok ()) st
| folder_continue txt_file txt_files st st1 r st2 :
    interp E (process_txt_file mp3_folder txt_file) st = (Ok None, st1) ->
    folder_run E mp3_folder txt_files st1 r st2 ->
    folder_run E mp3_folder (txt_file :: txt_files) st r st2
| folder_raise txt_file txt_files st e st1 :
    interp E (process_txt_file mp3_folder txt_file) st = (Raise e, st1) ->
    folder_run E mp3_folder (txt_file :: txt_files) st (Raise e) st1
| folder_pool txt_file txt_files st playlist_folder tracks st1 s r st2 :
    interp E (process_txt_file mp3_folder txt_file) st
    = (Ok (Some (playlist_folder, tracks)), st1) ->
    steps E playlist_folder (pool_init tracks st1) s -> all_done s ->
    gather s = Ok () ->
    folder_run E mp3_folder txt_files (shared s) r st2 ->
    folder_run E mp3_folder (txt_file :: txt_files) st r st2
| folder_pool_raise txt_file txt_files st playlist_folder tracks st1 s e :
    interp E (process_txt_file mp3_folder txt_file) st
    = (Ok (Some (playlist_folder, tracks)), st1) ->
    steps E playlist_folder (pool_init tracks st1) s -> all_done s ->
    gather s = Raise e ->
    folder_run E mp3_folder (txt_file :: txt_files) st (Raise e) (shared s).

Definition is_search (e : event) : bool :=
  match e with EvSearch _ => true | _ => false end.

Definition is_download (e : event) : bool :=
  match e with EvDownload _ _ => true | _ => false end.

Definition is_mkdir (e : event) : bool :=
  match e with EvMkdir _ => true | _ => false end.

(** [uses p ns nd]: on every path through [p] the search is called at most
    [ns] times and the downloader at most [nd] times. *)
Fixpoint uses {A} (p : prog A) (ns nd : nat) : Prop :=
  match p with
  | Ret _ => True
  | Print _ k => uses k ns nd
  | ReadLines _ k => forall r, uses (k r) ns nd
  | Exists _ k => forall r, uses (k r) ns nd
  | Mkdir _ k => forall r, uses (k r) ns nd
  | NewYoutubeDL k => forall r, uses (k r) ns nd
  | ExtractInfo _ k => exists ns', ns = S ns' ∧ forall r, uses (k r) ns' nd
  | Download _ _ k => exists nd', nd = S nd' ∧ forall r, uses (k r) ns nd'
  end.

(** The calls a worker may still make. *)
Definition may_use (w : worker) (n : nat * nat) : Prop :=
  match w with
  | Idle => True
  | Busy _ p => uses p n.1 n.2
  end.

(** The items the workers run. *)
Definition item (w : worker) : option Track :=
  match w with Busy t _ => Some t | Idle => None end.

Definition running (ws : list worker) : list Track := omap item ws.

(** The numbers of searches and of downloads in a trace. *)
Definition searches (tr : list event) : nat := length (List.filter is_search tr).
Definition downloads (tr : list event) : nat := length (List.filter is_download tr).

(** The calls made so far, those the running items may still make and one
    search and one download for each track still to be run stay within
    [ns] searches and [nd] downloads. *)
Definition within_budget {W} (ns nd : nat) (s : pool W) : Prop :=
  exists l : list (nat * nat),
    Forall2 may_use (workers s) l
    ∧ (searches (trace (shared s)) + sum_list_with fst l
       + length (queue s) + length (to_submit s) ≤ ns)%nat
    ∧ (downloads (trace (shared s)) + sum_list_with snd l
       + length (queue s) + length (to_submit s) ≤ nd)%nat.

(** ** The exporter, [playlist-txt.py] *)

Record PlaylistTrack := mkPlaylistTrack {
  pt_title : pystr; pt_artists : pystr; pt_album : pystr
}.

(** [PlaylistTrack.__str__]. *)
Definition PlaylistTrack_str (t : PlaylistTrack) : pystr :=
  pt_title t ++ py " - " ++ pt_artists t ++ py " - " ++ pt_album t.

(** The same record on the side of the downloader. *)
Definition to_Track (t : PlaylistTrack) : Track :=
  mkTrack (pt_title t) (pt_artists t) (pt_album t).

(** The privacy word of [_export_playlist]: [playlist.get('public', True)]
    is [True] when the key is missing; a null value counts as false. *)
Definition privacy (public : option (option bool)) : pystr :=
  match public with
  | None | Some (Some true) => py "Public"
  | Some _ => py "Private"
  end.

(** What [_export_playlist] writes to the manifest: [name], [owner] and
    [total] are the texts the f-strings print for the name of the playlist,
    the display name of its owner and the number of its tracks; [parsed]
    are the results of [_parse_track] for the items, of which those that
    are [None] are left out. *)
Definition written_manifest (name owner : pystr) (public : option (option bool))
    (total : pystr) (parsed : list (option PlaylistTrack)) : pystr :=
  (py "Playlist: " ++ name ++ nl)
  ++ (py "Owner: " ++ owner ++ nl)
  ++ (py "Privacy: " ++ privacy public ++ nl)
  ++ (py "Tracks: " ++ total ++ nl ++ nl)
  ++ (py "=== Tracks ===" ++ nl ++ nl)
  ++ mjoin ((fun t => PlaylistTrack_str t ++ nl) <$> omap id parsed).

(** [f.readlines()] on a file opened in text mode: a line ends at a line
    feed, at a carriage return or at the two together, and is returned with
    a line feed at its end; what follows the last line end is a line of
    its own. *)
Fixpoint readlines_from (cur : pystr) (s : pystr) : list pystr :=
  match s with
  | [] => match cur with [] => [] | _ => [reverse cur] end
  | c :: s' =>
      if c =? 10 then reverse (10 :: cur) :: readlines_from [] s'
      else if c =? 13 then
        match s' with
        | d :: s'' =>
            if d =? 10 then reverse (10 :: cur) :: readlines_from [] s''
            else reverse (10 :: cur) :: readlines_from [] s'
        | [] => [reverse (10 :: cur)]
        end
      else readlines_from (c :: cur) s'
  end.

Definition readlines_text (s : pystr) : list pystr := readlines_from [] s.

Definition no_newline (s : pystr) : Prop := (10 ∉ s) ∧ (13 ∉ s).

(** A track whose line is read back as it was written. *)
Definition plain_track (t : PlaylistTrack) : Prop :=
  ((hyphen ∉ pt_title t) ∧ (hyphen ∉ pt_artists t) ∧ (hyphen ∉ pt_album t))
  ∧ (no_newline (pt_title t) ∧ no_newline (pt_artists t) ∧ no_newline (pt_album t))
  ∧ lstrip (pt_title t) = pt_title t ∧ pt_title t ≠ []
  ∧ rstrip (pt_album t) = pt_album t ∧ pt_album t ≠ [].

(** One answer of the catalogue to a request for a page: the values of its
    keys [items] and [next], when it has them. *)
Record page (A : Type) : Type := mkPage {
  page_items : option (list A);
  page_next : option pystr
}.
Arguments mkPage {A}.
Arguments page_items {A}.
Arguments page_next {A}.

(** The loop of [_get_all_playlist_tracks].  [playlist_tracks offset] is the
    answer of the catalogue to the request for the page at [offset]; the
    loop asks for each offset once.  The loop of the program has no bound:
    [fuel] bounds the number of requests, and [None] says that it was
    used up. *)
Fixpoint get_all_loop {A} (playlist_tracks : nat -> Result (page A))
    (fuel offset : nat) (tracks : list A) : option (Result (list A)) :=
  match fuel with
  | O => None
  | S fuel' =>
      match playlist_tracks offset with
      | Raise e => Some (Raise e)
      | Ok results =>
          match page_items results with
          | None => Some (Raise (py "'items'"))
          | Some its =>
              let tracks := tracks ++ its in
              match page_next results with
              | Some (c :: n) =>
                  get_all_loop playlist_tracks fuel' (offset + 100) tracks
              | _ => Some (Ok tracks)
              end
          end
      end
  end.

Definition _get_all_playlist_tracks {A} (playlist_tracks : nat -> Result (page A))
    (fuel : nat) : option (Result (list A)) :=
  get_all_loop playlist_tracks fuel 0 [].

(** The page at offset [100 * i] holds the items [its i] and names a next
    page. *)
Definition full_page {A} (playlist_tracks : nat -> Result (page A))
    (its : nat -> list A) (i : nat) : Prop :=
  exists c n,
    playlist_tracks (100 * i)%nat = Ok (mkPage (Some (its i)) (Some (c :: n))).

(** A catalogue that answers with three pages, and one whose third page
    cannot be fetched. *)
Definition three_pages (offset : nat) : Result (page nat) :=
  match offset with
  | 0%nat => Ok (mkPage (Some [1; 2]%nat) (Some (py "https://api/next")))
  | 100%nat => Ok (mkPage (Some [3]%nat) (Some (py "https://api/next")))
  | 200%nat => Ok (mkPage (Some [4; 5]%nat) None)
  | _ => Raise (py "not asked")
  end.

Definition three_pages_then_error (offset : nat) : Result (page nat) :=
  match offset with
  | 0%nat => Ok (mkPage (Some [1; 2]%nat) (Some (py "https://api/next")))
  | 100%nat => Ok (mkPage (Some [3]%nat) (Some (py "https://api/next")))
  | _ => Raise (py "timed out")
  end.

(** [_validate_user_url]: [user_url] is the value of the environment
    variable, if it is set, and [urlparse_path] gives the path of an
    address as [urlparse] does. *)
Definition _validate_user_url (urlparse_path : pystr -> pystr)
    (user_url : option pystr) : Result pystr :=
  match user_url with
  | Some (c :: u) =>
      let user_id := default [] (last (split (urlparse_path (c :: u)) [slash])) in
      if truthy user_id then Ok user_id
      else Raise (py "URL utente non valido")
  | _ => Raise (py "URL utente mancante nelle variabili d'ambiente")
  end.

(** * Properties *)

(** ** The text functions and the paths on examples *)

Example strip_ex : strip (py "  Song A - B " ++ nl) = py "Song A - B".
Proof. reflexivity. Qed.

Example split_ex :
  split (py "Song A - Artist B - Album C") (py " - ")
  = [py "Song A"; py "Artist B"; py "Album C"].
Proof. reflexivity. Qed.

Example split_trailing_ex : split (py "a - ") (py " - ") = [py "a"; []].
Proof. reflexivity. Qed.

Example split_overlap_ex :
  split (py "x - - - y") (py " - ") = [py "x"; py "-"; py "y"].
Proof. reflexivity. Qed.

Example replace_ex :
  replace (py "Playlist: My Playlist: Mix") (py "Playlist: ") [] = py "My Mix".
Proof. reflexivity. Qed.

Example div_ex :
  str (div (div (mkPath (py "/") [py "home"; py "mp3"]) (py "Rock"))
           (py "Song A - Artist B.mp3"))
  = py "/home/mp3/Rock/Song A - Artist B.mp3".
Proof. reflexivity. Qed.

Example with_suffix_ex :
  str <$> (match with_suffix (mkPath [] [py "mp3"; py "a.b - c.mp3"]) (py ".%(ext)s")
           with Ok p => Some p | Raise _ => None end)
  = Some (py "mp3/a.b - c.%(ext)s").
Proof. reflexivity. Qed.

(** ** File names and the text functions *)

Lemma re_sub_invalid_app (a b : pystr) :
  re_sub_invalid (a ++ b) = re_sub_invalid a ++ re_sub_invalid b.
Proof. apply filter_app. Qed.

Lemma re_sub_invalid_elem (s : pystr) (c : N) :
  c ∈ re_sub_invalid s ↔ (c ∉ invalid_chars) ∧ (c ∈ s).
Proof. unfold re_sub_invalid. by rewrite list_elem_of_filter. Qed.

Lemma safe_filename_split (track : Track) :
  _get_safe_filename track
  = re_sub_invalid (title track) ++ py " - " ++ re_sub_invalid (artists track).
Proof.
  unfold _get_safe_filename. by rewrite !re_sub_invalid_app.
Qed.

Lemma safe_filename_facts (track : Track) :
  _get_safe_filename track ≠ []
  ∧ (∀ c, c ∈ invalid_chars → c ∉ _get_safe_filename track)
  ∧ (re_sub_invalid (title track) = [] → re_sub_invalid (artists track) = [] →
     _get_safe_filename track = py " - ").
Proof.
  split; [|split].
  - rewrite safe_filename_split. intros H.
    apply app_eq_nil in H as [_ H]. discriminate H.
  - intros c Hc Hin. apply re_sub_invalid_elem in Hin as [Hn _]. by apply Hn.
  - intros Ht Ha. rewrite safe_filename_split, Ht, Ha. reflexivity.
Qed.

(* strings *)
Lemma startswith_app (s t sub : pystr) :
  startswith s sub = true → startswith (s ++ t) sub = true.
Proof.
  revert s. induction sub as [|p sub IH]; intros [|c s]; simpl; try done.
  intros [H1 H2]%andb_prop. rewrite H1. simpl. by apply IH.
Qed.

Lemma contains_app_l (sub s t : pystr) :
  contains sub s = true → contains sub (s ++ t) = true.
Proof.
  induction s as [|c s IH]; simpl.
  - rewrite orb_false_r. intros H. destruct sub; [|done].
    destruct t; reflexivity.
  - intros [H|H]%orb_prop.
    + change (c :: s ++ t) with ((c :: s) ++ t).
      rewrite (startswith_app (c :: s) t sub H). reflexivity.
    + rewrite (IH H). apply orb_true_r.
Qed.

Lemma contains_app_r (sub s t : pystr) :
  contains sub t = true → contains sub (s ++ t) = true.
Proof.
  intros H. induction s as [|c s IH]; [done|].
  simpl. rewrite IH. apply orb_true_r.
Qed.

Lemma lstrip_suffix (s : pystr) : ∃ p, s = p ++ lstrip s.
Proof.
  induction s as [|c s [p IH]]; simpl.
  - by exists [].
  - destruct (isspace c).
    + exists (c :: p). simpl. by rewrite <- IH.
    + by exists [].
Qed.

Lemma rstrip_prefix (s : pystr) : ∃ q, s = rstrip s ++ q.
Proof.
  unfold rstrip. destruct (lstrip_suffix (reverse s)) as [p Hp].
  exists (reverse p).
  rewrite <- reverse_app, <- Hp. by rewrite reverse_involutive.
Qed.

Lemma contains_strip (sub s : pystr) :
  contains sub (strip s) = true → contains sub s = true.
Proof.
  unfold strip. intros H.
  destruct (lstrip_suffix s) as [p Hp].
  destruct (rstrip_prefix (lstrip s)) as [q Hq].
  rewrite Hp, Hq. apply contains_app_r, contains_app_l, H.
Qed.

Lemma split_from_contains (sep : pystr) (s : pystr) :
  ∀ skip cur, (1 < length (split_from sep skip cur s))%nat → contains sep s = true.
Proof.
  induction s as [|c s IH]; intros skip cur; simpl split_from.
  - simpl. lia.
  - destruct skip as [|k].
    + destruct (startswith (c :: s) sep) eqn:Hs.
      * intros _. simpl. simpl in Hs. rewrite Hs. reflexivity.
      * intros H. apply IH in H. simpl. rewrite H. apply orb_true_r.
    + intros H. apply IH in H. simpl. rewrite H. apply orb_true_r.
Qed.

Lemma split_contains (s sep : pystr) :
  (1 < length (split s sep))%nat → contains sep s = true.
Proof. apply split_from_contains. Qed.

Lemma parse_line_spec (tracks : list Track) (line : pystr) :
  parse_line tracks line = tracks ++ option_list (track_of_line line).
Proof.
  unfold parse_line, track_of_line.
  destruct (split (strip line) (py " - ")) as [|a [|b [|c [|d l]]]] eqn:Hsplit;
    simpl length; simpl Nat.eqb; simpl option_list; rewrite ?app_nil_r;
    try (by destruct (_ && _)).
  assert (Hc : contains (py " - ") (strip line) = true).
  { apply split_contains. rewrite Hsplit. simpl. lia. }
  rewrite (contains_strip _ _ Hc), andb_true_r.
  destruct (strip line) eqn:Hl; [discriminate Hc|]. reflexivity.
Qed.

Lemma foldl_parse_line (lines : list pystr) :
  ∀ tracks, foldl parse_line tracks lines = tracks ++ omap track_of_line lines.
Proof.
  induction lines as [|l lines IH]; intros tracks; simpl.
  - by rewrite app_nil_r.
  - rewrite IH, parse_line_spec. rewrite <- app_assoc. f_equal.
    by destruct (track_of_line l).
Qed.

(** *** Lines written as title, separator, artists, separator, album *)

(** The separator cannot start inside a text without hyphen, nor at its
    last character when a space follows. *)
Lemma startswith_sep_hyphen_free (x : N) (a rest : pystr) :
  hyphen ∉ a →
  startswith (x :: a ++ 32 :: rest) (py " - ") = false.
Proof.
  intros Ha. change (py " - ") with [32; 45; 32]. simpl.
  destruct a as [|y a]; simpl.
  - by rewrite andb_false_r.
  - apply not_elem_of_cons in Ha as [Hy _].
    destruct (y =? 45) eqn:Hy'; [apply N.eqb_eq in Hy'; by subst y|].
    by rewrite andb_false_r.
Qed.

Lemma split_from_segment (a rest cur : pystr) :
  hyphen ∉ a →
  split_from (py " - ") O cur (a ++ py " - " ++ rest)
  = (reverse cur ++ a) :: split_from (py " - ") O [] rest.
Proof.
  revert cur. induction a as [|x a IH]; intros cur Ha.
  - rewrite app_nil_r. reflexivity.
  - apply not_elem_of_cons in Ha as [Hx Ha].
    change ((x :: a) ++ py " - " ++ rest) with (x :: a ++ 32 :: (45 :: 32 :: rest)).
    cbn [split_from]. rewrite startswith_sep_hyphen_free; [|done].
    change (a ++ 32 :: 45 :: 32 :: rest) with (a ++ py " - " ++ rest).
    rewrite IH; [|done]. by rewrite reverse_cons, <- app_assoc.
Qed.

Lemma split_from_last (a cur : pystr) :
  hyphen ∉ a → split_from (py " - ") O cur a = [reverse cur ++ a].
Proof.
  revert cur. induction a as [|x a IH]; intros cur Ha.
  - simpl. by rewrite app_nil_r.
  - apply not_elem_of_cons in Ha as [Hx Ha]. cbn [split_from].
    assert (Hs : startswith (x :: a) (py " - ") = false).
    { change (py " - ") with [32; 45; 32]. simpl.
      destruct a as [|y a]; simpl; [by rewrite andb_false_r|].
      apply not_elem_of_cons in Ha as [Hy _].
      destruct (y =? 45) eqn:Hy'; [apply N.eqb_eq in Hy'; by subst y|].
      by rewrite andb_false_r. }
    rewrite Hs, IH; [|done]. by rewrite reverse_cons, <- app_assoc.
Qed.

Lemma split_three (a b c : pystr) :
  hyphen ∉ a → hyphen ∉ b → hyphen ∉ c →
  split (a ++ py " - " ++ b ++ py " - " ++ c) (py " - ") = [a; b; c].
Proof.
  intros Ha Hb Hc. unfold split.
  rewrite (split_from_segment a _ [] Ha), (split_from_segment b _ [] Hb),
    (split_from_last c [] Hc).
  reflexivity.
Qed.

(** A line that reads, once trimmed, as three texts without hyphen with the
    separator between them adds the track of these three texts. *)
Lemma track_of_line_three (line a b c : pystr) :
  hyphen ∉ a → hyphen ∉ b → hyphen ∉ c →
  strip line = a ++ py " - " ++ b ++ py " - " ++ c →
  track_of_line line = Some (mkTrack a b c).
Proof.
  intros Ha Hb Hc Hline. unfold track_of_line. by rewrite Hline, split_three.
Qed.

Lemma track_of_line_other (line : pystr) :
  length (split (strip line) (py " - ")) ≠ 3%nat → track_of_line line = None.
Proof.
  unfold track_of_line.
  by destruct (split (strip line) (py " - ")) as [|a [|b [|c [|d l]]]].
Qed.

(** ** A program run alone *)

Section Interp.
Context {W : Type} (E : Env W).

Lemma interp_bind {A B} (p : prog A) (f : A → prog B) (s : state W) :
  interp E (bind p f) s = interp E (f (interp E p s).1) (interp E p s).2.
Proof.
  revert s. induction p as [a|m k IH|x k IH|x k IH|x k IH|k IH|u k IH|o u k IH];
    intros s; simpl; try done.
  - destruct (env_mkdir E (world s) x) as [w r]. apply IH.
  - destruct (env_extract_info E (world s) u) as [w r]. apply IH.
  - destruct (env_download E (world s) o u) as [w r]. apply IH.
Qed.

(** Answering the first call and running the rest is running the whole. *)
Lemma step_prog_interp {A} (p p' : prog A) (s s' : state W) :
  step_prog E p s = Some (p', s') → interp E p s = interp E p' s'.
Proof.
  destruct p as [a|m k|x k|x k|x k|k|u k|o u k]; simpl; try done.
  - by intros [= <- <-].
  - by intros [= <- <-].
  - by intros [= <- <-].
  - destruct (env_mkdir E (world s) x) as [w r]. by intros [= <- <-].
  - by intros [= <- <-].
  - destruct (env_extract_info E (world s) u) as [w r]. by intros [= <- <-].
  - destruct (env_download E (world s) o u) as [w r]. by intros [= <- <-].
Qed.

Lemma interp_bindM {A B} (m : M A) (f : A → M B) (s : state W) :
  interp E (bindM m f) s
  = match (interp E m s).1 with
    | Ok a => interp E (f a) (interp E m s).2
    | Raise e => (Raise e, (interp E m s).2)
    end.
Proof. unfold bindM. rewrite interp_bind. by destruct (interp E m s).1. Qed.

Lemma interp_try_except {A} (body : M A) (handler : pystr → M A) (s : state W) :
  interp E (try_except body handler) s
  = match (interp E body s).1 with
    | Ok a => (Ok a, (interp E body s).2)
    | Raise e => interp E (handler e) (interp E body s).2
    end.
Proof. unfold try_except. rewrite interp_bind. by destruct (interp E body s).1. Qed.

(** The run of [_search_and_get_url], case by case. *)
Lemma search_and_get_url_run (track : Track) (s : state W) :
  let url := py "ytsearch:" ++ (title track ++ py " " ++ artists track) in
  let out := interp E (_search_and_get_url track) s in
  match env_YoutubeDL E (world s) with
  | Raise e => out = (Ok None, emit s (world s) (EvPrint (ErrorSearching track e)))
  | Ok _ =>
      let '(w, r) := env_extract_info E (world s) url in
      let failed e :=
        (Ok None, emit (emit s w (EvSearch url)) w (EvPrint (ErrorSearching track e))) in
      match r with
      | Ok (Some {| entries := Some (video :: _) |}) =>
          match video_url_of video with
          | Ok u => out = (Ok (Some u), emit s w (EvSearch url))
          | Raise e => out = failed e
          end
      | Ok _ => out = (Ok None, emit s w (EvSearch url))
      | Raise e => out = failed e
      end
  end.
Proof.
  intros url out. subst out. unfold _search_and_get_url.
  rewrite interp_try_except, interp_bindM.
  change (interp E YoutubeDL s) with (env_YoutubeDL E (world s), s).
  cbn [fst snd].
  destruct (env_YoutubeDL E (world s)) as [[]|e]; [|done].
  rewrite interp_bindM. fold url.
  change (interp E (extract_info url) s)
    with (let '(w, r) := env_extract_info E (world s) url in
          interp E (Ret r) (emit s w (EvSearch url))).
  destruct (env_extract_info E (world s) url) as [w r]. cbn [interp fst snd].
  destruct r as [[[[[|video rest]|]]|]|e]; try done.
  rewrite interp_bindM. unfold lift. cbn [interp fst snd].
  by destruct (video_url_of video).
Qed.
End Interp.

(** ** What holds on every path through a program *)

Section Paths.
Context (wt : message → nat).

Lemma paths_mono {A} (p : prog A) (post post' : nat → A → Prop) :
  (∀ n a, post n a → post' n a) → paths wt p post → paths wt p post'.
Proof.
  revert post post'.
  induction p as [a|m k IH|x k IH|x k IH|x k IH|k IH|u k IH|o u k IH];
    intros post post' Himp; simpl; eauto.
  apply IH. intros n a. apply Himp.
Qed.

Lemma paths_bind {A B} (p : prog A) (f : A → prog B) (post : nat → B → Prop) :
  paths wt p (fun n a => paths wt (f a) (fun m b => post (n + m)%nat b)) →
  paths wt (bind p f) post.
Proof.
  revert post.
  induction p as [a|m k IH|x k IH|x k IH|x k IH|k IH|u k IH|o u k IH];
    intros post; simpl; eauto.
  intros H. apply IH. revert H. apply paths_mono.
  intros n a. apply paths_mono. intros n' b. by rewrite Nat.add_assoc.
Qed.

(** Some path exists: the answers of the world are never an empty type. *)
Lemma paths_inhabited {A} (p : prog A) (post : nat → A → Prop) :
  paths wt p post → ∃ n a, post n a.
Proof.
  revert post.
  induction p as [a|m k IH|x k IH|x k IH|x k IH|k IH|u k IH|o u k IH];
    intros post; simpl; intros H.
  - eauto.
  - apply IH in H as (n & a & H). eauto.
  - apply (IH (Raise [])), H.
  - apply (IH (Raise [])), H.
  - apply (IH (Raise [])), H.
  - apply (IH (Raise [])), H.
  - apply (IH (Raise [])), H.
  - apply (IH (Raise [])), H.
Qed.

Lemma paths_bindM {A B} (m : M A) (f : A → M B) (post : nat → Result B → Prop) :
  paths wt m (fun n r =>
    match r with
    | Ok a => paths wt (f a) (fun k b => post (n + k)%nat b)
    | Raise e => post n (Raise e)
    end) →
  paths wt (bindM m f) post.
Proof.
  intros H. apply paths_bind. revert H. apply paths_mono.
  intros n [a|e]; simpl; [done|]. by rewrite Nat.add_0_r.
Qed.

Lemma paths_try_except {A} (body : M A) (handler : pystr → M A)
    (post : nat → Result A → Prop) :
  paths wt body (fun n r =>
    match r with
    | Ok a => post n (Ok a)
    | Raise e => paths wt (handler e) (fun k b => post (n + k)%nat b)
    end) →
  paths wt (try_except body handler) post.
Proof.
  intros H. apply paths_bind. revert H. apply paths_mono.
  intros n [a|e]; simpl; [|done]. by rewrite Nat.add_0_r.
Qed.
End Paths.

Section Statuses.
Context (sel : Track → bool).
Let wt := status_weight sel.

(** The resolver prints no status line and never raises. *)
Lemma search_paths (track : Track) :
  paths wt (_search_and_get_url track) (fun n r => n = O ∧ ∃ u, r = Ok u).
Proof.
  unfold _search_and_get_url. apply paths_try_except, paths_bindM.
  paths_cbn. intros [[]|e]; [|paths_cbn; eauto].
  apply paths_bindM. paths_cbn.
  intros [[[[[|video rest]|]]|]|e]; paths_cbn; eauto.
  apply paths_bindM. paths_cbn.
  destruct (video_url_of video); paths_cbn; eauto.
  all: apply paths_bindM; paths_cbn; subst wt; cbn [status_weight status];
    split; [lia|eauto].
Qed.

(** Every path through [_download_track] prints exactly one status line,
    about its track, and returns normally. *)
Lemma download_track_paths (track : Track) (playlist_folder : Path) :
  paths wt (_download_track track playlist_folder)
        (fun n r => r = Ok () ∧ n = if sel track then 1%nat else 0%nat).
Proof.
  unfold _download_track. apply paths_try_except, paths_bindM.
  assert (Hw : ∀ m, status m = Some track →
            wt m = if sel track then 1%nat else 0%nat).
  { intros m Hm. unfold wt, status_weight. by rewrite Hm. }
  assert (Hp : ∀ m k, status m = Some track →
            paths wt (print m)
              (fun n r => match r with
                          | Ok _ => Ok () = Ok () ∧
                                    (k + n)%nat = (k + if sel track then 1 else 0)%nat
                          | Raise e => False end)).
  { intros m k Hm. paths_cbn. rewrite (Hw m Hm). split; [done|lia]. }
  paths_cbn. intros [[|]|e].
  - generalize (Hp (AlreadyExists track) O eq_refl). apply paths_mono.
    intros n [[]|e]; [|done]. simpl. tauto.
  - apply paths_bindM. generalize (search_paths track). apply paths_mono.
    intros n r [-> [u ->]]. destruct u as [[|c u]|].
    + generalize (Hp (CouldNotFind track) O eq_refl). apply paths_mono.
      intros n [[]|e]; [|done]. simpl. tauto.
    + apply paths_bindM. paths_cbn.
      destruct (with_suffix _ _) as [tmpl|e].
      * apply paths_bindM. paths_cbn. intros [[]|e].
        -- apply paths_try_except, paths_bindM. paths_cbn. intros [[]|e].
           ++ rewrite (Hw (Downloaded track)); [|done]. split; [done|lia].
           ++ paths_cbn. rewrite (Hw (ErrorDownloading track e)); [|done].
              split; [done|lia].
        -- paths_cbn. rewrite (Hw (ErrorInProcess track e)); [|done]. split; [done|lia].
      * paths_cbn. rewrite (Hw (ErrorInProcess track e)); [|done]. split; [done|lia].
    + generalize (Hp (CouldNotFind track) O eq_refl). apply paths_mono.
      intros n [[]|e]; [|done]. simpl. tauto.
  - paths_cbn. rewrite (Hw (ErrorInProcess track e)); [|done]. split; [done|lia].
Qed.
End Statuses.

(** ** Runs of the pool *)

Lemma sum_list_insert (l : list nat) (i a b : nat) :
  l !! i = Some a → (sum_list (<[i:=b]> l) + a = sum_list l + b)%nat.
Proof.
  revert i. induction l as [|x l IH]; intros [|i] H; simplify_eq/=; [lia|].
  specialize (IH _ H). lia.
Qed.

Lemma statuses_app (sel : Track → bool) (tr : list event) (e : event) :
  statuses sel (tr ++ [e]) = (statuses sel tr + event_weight sel e)%nat.
Proof. unfold statuses. rewrite sum_list_with_app. simpl. lia. Qed.

Lemma selected_app sel (l1 l2 : list Track) :
  selected sel (l1 ++ l2) = (selected sel l1 + selected sel l2)%nat.
Proof. unfold selected. by rewrite List.filter_app, length_app. Qed.

Lemma selected_cons sel t (l : list Track) :
  selected sel (t :: l) = ((if sel t then 1 else 0) + selected sel l)%nat.
Proof. unfold selected. simpl. by destruct (sel t). Qed.

Section Pool.
Context {W : Type} (E : Env W) (folder : Path).

Lemma steps_trans (s1 s2 s3 : pool W) :
  steps E folder s1 s2 → steps E folder s2 s3 → steps E folder s1 s3.
Proof.
  intros H12 H23. induction H23 as [|s2 s3 s4 _ IH Hstep]; [done|].
  eapply steps_step; [by apply IH|done].
Qed.

Lemma steps_one (s s' : pool W) (m : move) :
  exec E folder m s = Some s' → steps E folder s s'.
Proof. intros H. eapply steps_step; [apply steps_refl|by exists m]. Qed.

Lemma play_steps (ms : list move) (s s' : pool W) :
  play E folder ms s = Some s' → steps E folder s s'.
Proof.
  revert s. induction ms as [|m ms IH]; intros s; simpl.
  - intros [= ->]. apply steps_refl.
  - destruct (exec E folder m s) as [s1|] eqn:Hm; [|done].
    intros H. eapply steps_trans; [by eapply steps_one|by apply IH].
Qed.

(** A property that holds at the start and is kept by every move holds
    throughout. *)
Lemma steps_invariant (I : pool W → Prop) (s0 : pool W) :
  I s0 →
  (∀ s m s', I s → exec E folder m s = Some s' → I s') →
  ∀ s, steps E folder s0 s → I s.
Proof.
  intros H0 Hkeep s Hs. induction Hs as [|s1 s2 s3 _ IH [m Hm]]; [done|].
  eapply Hkeep; [by apply IH|done].
Qed.

Lemma exec_moved (m : move) (s s' : pool W) :
  exec E folder m s = Some s' ↔ moved E folder s m s'.
Proof.
  split.
  - destruct m as [[]|i|i|i]; simpl.
    + destruct (to_submit s) as [|t ts] eqn:Ht; [done|].
      case_decide; [|done]. intros [= <-]. by eapply moved_spawn.
    + destruct (to_submit s) as [|t ts] eqn:Ht; [done|].
      case_decide; [|done]. intros [= <-]. by eapply moved_submit.
    + destruct (workers s !! i) as [[|t p]|] eqn:Hw; try done.
      destruct (queue s) as [|t q] eqn:Hq; [done|].
      intros [= <-]. by eapply moved_take.
    + destruct (workers s !! i) as [[|t p]|] eqn:Hw; try done.
      destruct (step_prog E p (shared s)) as [[p' st]|] eqn:Hp; [|done].
      intros [= <-]. by eapply moved_call.
    + destruct (workers s !! i) as [[|t [r| | | | | | |]]|] eqn:Hw; try done.
      intros [= <-]. by eapply moved_finish.
  - intros [t ts Ht Hl|t ts Ht Hl|i t q Hw Hq|i t p p' st Hw Hp|i t r Hw]; simpl.
    + rewrite Ht. by rewrite decide_True.
    + rewrite Ht. by rewrite decide_True.
    + by rewrite Hw, Hq.
    + by rewrite Hw, Hp.
    + by rewrite Hw.
Qed.

(** *** The cap on the workers *)

Lemma workers_capped (tracks : list Track) (st : state W) (s : pool W) :
  steps E folder (pool_init tracks st) s → (length (workers s) ≤ max_workers)%nat.
Proof.
  apply (steps_invariant (fun s => (length (workers s) ≤ max_workers)%nat)).
  - simpl. lia.
  - intros s1 m s2 H Hm. apply exec_moved in Hm.
    destruct Hm; simpl; rewrite ?length_app, ?length_insert; simpl; lia.
Qed.

Lemma filter_length_le {A} (f g : A → bool) (l : list A) :
  (∀ x, f x = true → g x = true) →
  (length (List.filter f l) ≤ length (List.filter g l))%nat.
Proof.
  intros Hfg. induction l as [|x l IH]; simpl; [lia|].
  destruct (f x) eqn:Hf.
  - rewrite (Hfg x Hf). simpl. lia.
  - destruct (g x); simpl; lia.
Qed.

Lemma filter_length_total {A} (f : A → bool) (l : list A) :
  (length (List.filter f l) ≤ length l)%nat.
Proof.
  induction l as [|x l IH]; simpl; [lia|]. destruct (f x); simpl; lia.
Qed.

Lemma busy_capped (tracks : list Track) (st : state W) (s : pool W) :
  steps E folder (pool_init tracks st) s →
  (in_flight s ≤ busy s)%nat ∧ (busy s ≤ max_workers)%nat ∧ max_workers = 3%nat.
Proof.
  intros Hs. split; [|split; [|done]].
  - apply filter_length_le. by intros [|t []].
  - etrans; [apply filter_length_total|by eapply workers_capped].
Qed.
End Pool.

(** ** The books of the pool *)

Section Accounts.
Context {W : Type} (E : Env W) (folder : Path) (sel : Track → bool).
Let wt := status_weight sel.

(** One call of an item moves what it prints from what it owes to the
    trace. *)
Lemma step_prog_owes (p p' : M ()) (st st' : state W) (n : nat) :
  paths wt p (fun k r => r = Ok () ∧ k = n) →
  step_prog E p st = Some (p', st') →
  ∃ n', paths wt p' (fun k r => r = Ok () ∧ k = n') ∧
        (statuses sel (trace st') + n' = statuses sel (trace st) + n)%nat.
Proof.
  intros Hp Hstep.
  destruct p as [a|m k|x k|x k|x k|k|u k|o u k]; simpl in Hp, Hstep.
  - done.
  - injection Hstep as <- <-. simpl. rewrite statuses_app. simpl.
    destruct (paths_inhabited _ _ _ Hp) as (j & r & _ & Hj).
    exists j. split; [|fold wt; lia].
    revert Hp. apply paths_mono. intros j' r' [-> Hj']. split; [done|lia].
  - injection Hstep as <- <-. eauto.
  - injection Hstep as <- <-. eauto.
  - destruct (env_mkdir E (world st) x) as [w r]. injection Hstep as <- <-.
    exists n. split; [apply Hp|]. simpl. rewrite statuses_app. simpl. lia.
  - injection Hstep as <- <-. eauto.
  - destruct (env_extract_info E (world st) u) as [w r]. injection Hstep as <- <-.
    exists n. split; [apply Hp|]. simpl. rewrite statuses_app. simpl. lia.
  - destruct (env_download E (world st) o u) as [w r]. injection Hstep as <- <-.
    exists n. split; [apply Hp|]. simpl. rewrite statuses_app. simpl. lia.
Qed.

Lemma balanced_init (tracks : list Track) (st : state W) :
  balanced sel (statuses sel (trace st) + selected sel tracks)
           (pool_init tracks st).
Proof. exists []. split; [constructor|]. simpl. unfold selected at 1. simpl. lia. Qed.

Lemma balanced_keep (total : nat) (s s' : pool W) (m : move) :
  balanced sel total s → exec E folder m s = Some s' → balanced sel total s'.
Proof.
  intros (l & Hl & Hsum) Hm. apply exec_moved in Hm.
  destruct Hm as [t ts Ht Hlen|t ts Ht Hlen|i t q Hw Hq|i t p p' st Hw Hp|i t r Hw];
    unfold balanced; simpl.
  - exists (l ++ [O]). split.
    + apply Forall2_app; [done|]. by repeat constructor.
    + rewrite Ht, selected_cons in Hsum.
      rewrite selected_app, (selected_cons _ t []), sum_list_with_app. simpl.
      unfold selected at 2. simpl. lia.
  - exists l. split; [done|].
    rewrite Ht, selected_cons in Hsum.
    rewrite selected_app, (selected_cons _ t []).
    unfold selected at 2. simpl. lia.
  - destruct (Forall2_lookup_l _ _ _ _ _ Hl Hw) as (a & Ha & Hidle).
    simpl in Hidle. subst a.
    exists (<[i := if sel t then 1%nat else 0%nat]> l). split.
    + apply Forall2_insert; [done|]. apply download_track_paths.
    + rewrite Hq, selected_cons in Hsum.
      pose proof (sum_list_insert l i O (if sel t then 1%nat else 0%nat) Ha).
      unfold sum_list_with in *. lia.
  - destruct (Forall2_lookup_l _ _ _ _ _ Hl Hw) as (a & Ha & Hbusy).
    simpl in Hbusy.
    destruct (step_prog_owes _ _ _ _ _ Hbusy Hp) as (a' & Hp' & Htr).
    exists (<[i := a']> l). split.
    + by apply Forall2_insert.
    + pose proof (sum_list_insert l i a a' Ha). lia.
  - destruct (Forall2_lookup_l _ _ _ _ _ Hl Hw) as (a & Ha & [_ Hzero]).
    exists (<[i := O]> l). split.
    + by apply Forall2_insert.
    + pose proof (sum_list_insert l i a O Ha). lia.
Qed.

Lemma idle_owes_nothing (ws : list worker) (l : list nat) :
  forallb is_idle ws = true → Forall2 (owes sel) ws l → sum_list l = O.
Proof.
  intros Hidle Hl. induction Hl as [|w a ws l Hw _ IH]; [done|].
  simpl in Hidle. apply andb_prop in Hidle as [Hi Hrest].
  destruct w; [|done]. simpl in Hw. subst a. simpl. by apply IH.
Qed.

Lemma results_keep (total : nat) (s s' : pool W) (m : move) :
  balanced sel total s →
  Forall (fun tr => tr.2 = Ok ()) (results s) →
  exec E folder m s = Some s' →
  Forall (fun tr => tr.2 = Ok ()) (results s').
Proof.
  intros (l & Hl & _) Hres Hm. apply exec_moved in Hm.
  destruct Hm as [t ts Ht Hlen|t ts Ht Hlen|i t q Hw Hq|i t p p' st Hw Hp|i t r Hw];
    simpl; try done.
  destruct (Forall2_lookup_l _ _ _ _ _ Hl Hw) as (a & Ha & [Hr _]).
  apply Forall_app. split; [done|]. by repeat constructor.
Qed.
End Accounts.

Section Account.
Context {W : Type} (E : Env W) (folder : Path).

(** Throughout a run the books balance for every selection of tracks and
    every resolved future holds a normal return. *)
Lemma pool_sound (sel : Track → bool) (tracks : list Track) (st : state W)
    (s : pool W) :
  steps E folder (pool_init tracks st) s →
  balanced sel (statuses sel (trace st) + selected sel tracks) s
  ∧ Forall (fun tr => tr.2 = Ok ()) (results s).
Proof.
  apply (steps_invariant E folder (fun s =>
    balanced sel (statuses sel (trace st) + selected sel tracks) s
    ∧ Forall (fun tr => tr.2 = Ok ()) (results s))).
  - split; [apply balanced_init|constructor].
  - intros s1 m s2 [Hb Hr] Hm. split.
    + by eapply balanced_keep.
    + by eapply results_keep.
Qed.

Lemma first_exception_ok (rs : list (Track * Result ())) :
  Forall (fun tr => tr.2 = Ok ()) rs → first_exception rs = Ok ().
Proof.
  induction 1 as [|[t r] rs Hr _ IH]; [done|]. simpl in Hr. subst r. apply IH.
Qed.

Lemma done_statuses (sel : Track → bool) (tracks : list Track) (st : state W)
    (s : pool W) :
  steps E folder (pool_init tracks st) s → all_done s →
  statuses sel (trace (shared s))
  = (statuses sel (trace st) + selected sel tracks)%nat.
Proof.
  intros Hs (Hsub & Hq & Hidle).
  destruct (pool_sound sel _ _ _ Hs) as [(l & Hl & Hsum) _].
  rewrite (idle_owes_nothing _ _ _ Hidle Hl), Hsub, Hq in Hsum.
  unfold selected in Hsum at 1 2. simpl in Hsum. lia.
Qed.
End Account.

(** ** Every run can be completed *)

Section Progress.
Context {W : Type} (E : Env W) (folder : Path).

(** A running item can always be run to its end. *)
Lemma run_item (p : M ()) :
  ∀ (s : pool W) (i : nat) (t : Track),
    workers s !! i = Some (Busy t p) →
    ∃ s', steps E folder s s' ∧ to_submit s' = to_submit s ∧
          queue s' = queue s ∧ workers s' = <[i := Idle]> (workers s).
Proof.
  assert (Hcall : ∀ (s : pool W) i t p p' st,
    workers s !! i = Some (Busy t p) →
    step_prog E p (shared s) = Some (p', st) →
    (∀ s1 : pool W, workers s1 !! i = Some (Busy t p') →
       ∃ s', steps E folder s1 s' ∧ to_submit s' = to_submit s1 ∧
             queue s' = queue s1 ∧ workers s' = <[i := Idle]> (workers s1)) →
    ∃ s', steps E folder s s' ∧ to_submit s' = to_submit s ∧
          queue s' = queue s ∧ workers s' = <[i := Idle]> (workers s)).
  { intros s i t q p' st Hw Hp IH.
    pose (s1 := mkPool (to_submit s) (queue s) (<[i := Busy t p']> (workers s))
                       (results s) st).
    assert (Hm : exec E folder (Call i) s = Some s1).
    { apply exec_moved. by eapply moved_call. }
    destruct (IH s1) as (s' & Hs' & Hsub & Hq & Hws).
    { simpl. apply list_lookup_insert_eq. by eapply lookup_lt_Some. }
    exists s'. split; [|split; [done|split; [done|]]].
    - eapply steps_trans; [by eapply steps_one|done].
    - rewrite Hws. simpl. apply list_insert_insert_eq. }
  induction p as [r|m k IH|x k IH|x k IH|x k IH|k IH|u k IH|o u k IH];
    intros s i t Hw.
  - eexists. split; [eapply steps_one, exec_moved, moved_finish, Hw|]. done.
  - eapply Hcall; [done|reflexivity|]. intros s1. apply IH.
  - eapply Hcall; [done|reflexivity|]. intros s1. apply IH.
  - eapply Hcall; [done|reflexivity|]. intros s1. apply IH.
  - destruct (env_mkdir E (world (shared s)) x) as [w r] eqn:Hx.
    eapply (Hcall s i t _ (k r)); [done|simpl; by rewrite Hx|].
    intros s1. apply IH.
  - eapply Hcall; [done|reflexivity|]. intros s1. apply IH.
  - destruct (env_extract_info E (world (shared s)) u) as [w r] eqn:Hx.
    eapply (Hcall s i t _ (k r)); [done|simpl; by rewrite Hx|].
    intros s1. apply IH.
  - destruct (env_download E (world (shared s)) o u) as [w r] eqn:Hx.
    eapply (Hcall s i t _ (k r)); [done|simpl; by rewrite Hx|].
    intros s1. apply IH.
Qed.

(** The running items can be run to their ends one worker after the
    other. *)
Lemma run_all_items (n : nat) :
  ∀ s : pool W,
    ∃ s', steps E folder s s' ∧ to_submit s' = to_submit s ∧
          queue s' = queue s ∧ length (workers s') = length (workers s) ∧
          ∀ j, (j < n)%nat → (j < length (workers s))%nat →
               workers s' !! j = Some Idle.
Proof.
  induction n as [|n IH]; intros s.
  - exists s. split; [apply steps_refl|]. repeat split; try done. lia.
  - destruct (IH s) as (s1 & Hs1 & Hsub & Hq & Hlen & Hidle).
    destruct (workers s1 !! n) as [[|t p]|] eqn:Hn.
    + exists s1. repeat split; try done.
      intros j Hj Hjl. destruct (decide (j = n)) as [->|]; [done|].
      apply Hidle; lia.
    + destruct (run_item p s1 n t Hn) as (s2 & Hs2 & Hsub2 & Hq2 & Hws2).
      exists s2. split; [by eapply steps_trans|].
      rewrite Hsub2, Hq2, Hws2, length_insert. repeat split; try done.
      intros j Hj Hjl. destruct (decide (j = n)) as [->|].
      * apply list_lookup_insert_eq. by eapply lookup_lt_Some.
      * rewrite list_lookup_insert_ne; [|done]. apply Hidle; lia.
    + exists s1. repeat split; try done.
      intros j Hj Hjl. destruct (decide (j = n)) as [->|].
      * apply lookup_ge_None in Hn. lia.
      * apply Hidle; lia.
Qed.

Lemma all_idle_lookup (ws : list worker) :
  (∀ j, (j < length ws)%nat → ws !! j = Some Idle) ↔ forallb is_idle ws = true.
Proof.
  induction ws as [|w ws IH]; simpl.
  - split; [done|]. intros _ j Hj. lia.
  - rewrite andb_true_iff, <- IH. split.
    + intros H. split.
      * specialize (H O ltac:(lia)). by injection H as ->.
      * intros j Hj. apply (H (S j)). lia.
    + intros [Hw H] [|j] Hj.
      * by destruct w.
      * apply H. lia.
Qed.

Lemma settle (s : pool W) :
  ∃ s', steps E folder s s' ∧ to_submit s' = to_submit s ∧
        queue s' = queue s ∧ length (workers s') = length (workers s) ∧
        forallb is_idle (workers s') = true.
Proof.
  destruct (run_all_items (length (workers s)) s)
    as (s' & Hs & Hsub & Hq & Hlen & Hidle).
  exists s'. repeat split; try done.
  apply all_idle_lookup. intros j Hj. apply Hidle; lia.
Qed.

(** With a worker at hand the queue can be emptied. *)
Lemma drain_queue (q : list Track) :
  ∀ s : pool W,
    queue s = q → (0 < length (workers s))%nat →
    forallb is_idle (workers s) = true →
    ∃ s', steps E folder s s' ∧ to_submit s' = to_submit s ∧ queue s' = [] ∧
          length (workers s') = length (workers s) ∧
          forallb is_idle (workers s') = true.
Proof.
  induction q as [|t q IH]; intros s Hq Hlen Hidle.
  - exists s. split; [apply steps_refl|]. done.
  - assert (H0 : workers s !! O = Some Idle).
    { apply all_idle_lookup; [done|lia]. }
    pose (s1 := mkPool (to_submit s) q
                  (<[O := Busy t (_download_track t folder)]> (workers s))
                  (results s) (shared s)).
    assert (Hm : exec E folder (Take O) s = Some s1).
    { apply exec_moved. by eapply moved_take. }
    destruct (run_item (_download_track t folder) s1 O t)
      as (s2 & Hs2 & Hsub2 & Hq2 & Hws2).
    { simpl. by apply list_lookup_insert_eq. }
    simpl in Hsub2, Hq2, Hws2.
    rewrite list_insert_insert_eq, (list_insert_id _ _ _ H0) in Hws2.
    destruct (IH s2) as (s3 & Hs3 & Hsub3 & Hq3 & Hlen3 & Hidle3).
    { done. } { by rewrite Hws2. } { by rewrite Hws2. }
    exists s3. split.
    { eapply steps_trans; [by eapply steps_one|]. by eapply steps_trans. }
    rewrite Hsub3, Hsub2, Hlen3, Hws2. done.
Qed.

(** Once the queue is empty the tracks still to submit can be submitted and
    run. *)
Lemma drain_submit (ts : list Track) :
  ∀ s : pool W,
    to_submit s = ts → queue s = [] → forallb is_idle (workers s) = true →
    ∃ s', steps E folder s s' ∧ all_done s'.
Proof.
  induction ts as [|t ts IH]; intros s Hsub Hq Hidle.
  - exists s. split; [apply steps_refl|]. done.
  - assert (∃ s1, steps E folder s s1 ∧ to_submit s1 = ts ∧ queue s1 = [t] ∧
              (0 < length (workers s1))%nat ∧
              forallb is_idle (workers s1) = true)
      as (s1 & Hs1 & Hsub1 & Hq1 & Hlen1 & Hidle1).
    { destruct (workers s) as [|w ws] eqn:Hws.
      - eexists. split.
        + eapply steps_one, exec_moved, moved_spawn; [done|].
          rewrite Hws. unfold max_workers. simpl. lia.
        + simpl. rewrite Hq, Hws. simpl. repeat split; try done. lia.
      - eexists. split.
        + eapply steps_one, exec_moved, moved_submit; [done|].
          rewrite Hws. simpl. lia.
        + simpl. rewrite Hq, Hws. simpl. repeat split; try done. lia. }
    destruct (drain_queue [t] s1 Hq1 Hlen1 Hidle1)
      as (s2 & Hs2 & Hsub2 & Hq2 & Hlen2 & Hidle2).
    destruct (IH s2) as (s3 & Hs3 & Hdone); [congruence|done|done|].
    exists s3. split; [|done].
    eapply steps_trans; [done|]. by eapply steps_trans.
Qed.

(** Items wait in the queue only when there is a worker. *)
Lemma queue_has_worker (tracks : list Track) (st : state W) (s : pool W) :
  steps E folder (pool_init tracks st) s →
  queue s = [] ∨ (0 < length (workers s))%nat.
Proof.
  apply (steps_invariant E folder
           (fun s => queue s = [] ∨ (0 < length (workers s))%nat)).
  - by left.
  - intros s1 m s2 H Hm. apply exec_moved in Hm.
    destruct Hm as [t ts Ht Hlen|t ts Ht Hlen|i t q Hw Hq|i t p p' st' Hw Hp|i t r Hw];
      simpl; rewrite ?length_app, ?length_insert; simpl.
    + right. lia.
    + right. lia.
    + right. apply lookup_lt_Some in Hw. lia.
    + done.
    + done.
Qed.

(** From every state of a run the pool can reach the point where [gather]
    returns. *)
Lemma completes (tracks : list Track) (st : state W) (s : pool W) :
  steps E folder (pool_init tracks st) s →
  ∃ s', steps E folder s s' ∧ all_done s'.
Proof.
  intros Hs.
  destruct (settle s) as (s1 & Hs1 & Hsub1 & Hq1 & Hlen1 & Hidle1).
  assert (∃ s2, steps E folder s1 s2 ∧ queue s2 = [] ∧
                forallb is_idle (workers s2) = true) as (s2 & Hs2 & Hq2 & Hidle2).
  { destruct (queue_has_worker _ _ _ Hs) as [Hq|Hlen].
    - exists s1. split; [apply steps_refl|]. split; [congruence|done].
    - destruct (drain_queue (queue s1) s1 eq_refl) as (s2 & H2 & _ & Hq2 & _ & Hi2);
        [lia|done|]. by exists s2. }
  destruct (drain_submit (to_submit s2) s2 eq_refl Hq2 Hidle2) as (s3 & Hs3 & Hdone).
  exists s3. split; [|done].
  eapply steps_trans; [done|]. by eapply steps_trans.
Qed.
End Progress.

(** ** The parser and the file of a track *)

(** *** The path of a track's file *)

Lemma split_from_no_sep (c : N) (s : pystr) :
  c ∉ s → ∀ cur, split_from [c] O cur s = [reverse cur ++ s].
Proof.
  induction s as [|x s IH]; intros Hc cur; simpl.
  - by rewrite app_nil_r.
  - apply not_elem_of_cons in Hc as [Hx Hs].
    destruct (x =? c) eqn:Hxc; [apply N.eqb_eq in Hxc; congruence|].
    simpl. rewrite (IH Hs). by rewrite reverse_cons, <- app_assoc.
Qed.

Lemma leading_slashes_none (s : pystr) : slash ∉ s → leading_slashes s = O.
Proof.
  destruct s as [|x s]; [done|]. intros [Hx _]%not_elem_of_cons. simpl.
  destruct (x =? slash) eqn:Hxc; [apply N.eqb_eq in Hxc; congruence|done].
Qed.

(** A segment without a slash that is neither empty nor a single dot is
    appended as one component. *)
Lemma div_single (p : Path) (s : pystr) :
  slash ∉ s → s ≠ [] → s ≠ py "." → div p s = mkPath (root p) (parts p ++ [s]).
Proof.
  intros Hs Hne Hdot. unfold div, components, split.
  rewrite (leading_slashes_none s Hs), (split_from_no_sep slash s Hs). simpl.
  rewrite filter_cons_True; [done|]. by split.
Qed.

Lemma safe_filename_no_slash (track : Track) (ext : pystr) :
  slash ∉ ext → slash ∉ _get_safe_filename track ++ ext.
Proof.
  intros Hext [H|H]%elem_of_app; [|done].
  destruct (safe_filename_facts track) as (_ & Hclean & _).
  apply (Hclean slash); [|done]. unfold invalid_chars, slash.
  rewrite !elem_of_cons. tauto.
Qed.

Lemma safe_filename_cons (track : Track) :
  ∃ c s, _get_safe_filename track = c :: s.
Proof.
  destruct (safe_filename_facts track) as (Hne & _).
  destruct (_get_safe_filename track) as [|c s]; [done|eauto].
Qed.

Lemma output_path_parts (folder : Path) (track : Track) :
  output_path folder track
  = mkPath (root folder) (parts folder ++ [_get_safe_filename track ++ py ".mp3"]).
Proof.
  unfold output_path. destruct (safe_filename_cons track) as (c & s & Hs).
  apply div_single.
  - apply safe_filename_no_slash. apply (bool_decide_unpack _). reflexivity.
  - rewrite Hs. done.
  - rewrite Hs. destruct s; done.
Qed.

Lemma output_template_parts (folder : Path) (track : Track) :
  output_template folder track
  = str (mkPath (root folder)
           (parts folder ++ [_get_safe_filename track ++ py ".%(ext)s"])).
Proof.
  unfold output_template. destruct (safe_filename_cons track) as (c & s & Hs).
  f_equal. apply div_single.
  - apply safe_filename_no_slash. apply (bool_decide_unpack _). reflexivity.
  - rewrite Hs. done.
  - rewrite Hs. destruct s; done.
Qed.

Lemma rfind_dot_mp3 (a : pystr) :
  rfind_dot (a ++ py ".mp3") = Some (length a).
Proof.
  induction a as [|c a IH]; [done|].
  change ((c :: a) ++ py ".mp3") with (c :: (a ++ py ".mp3")).
  simpl rfind_dot. by rewrite IH.
Qed.

(** [with_suffix] replaces the extension of the track's file and keeps its
    base name, dots included. *)
Lemma with_suffix_mp3 (r : pystr) (ps : list pystr) (a new : pystr) :
  a ≠ [] →
  with_suffix (mkPath r (ps ++ [a ++ py ".mp3"])) new
  = Ok (mkPath r (ps ++ [a ++ new])).
Proof.
  intros Ha. unfold with_suffix, suffix, name. cbn [parts root].
  rewrite last_snoc. cbn [default id].
  rewrite rfind_dot_mp3, removelast_last.
  assert (Hlen : length (a ++ py ".mp3") = (length a + 4)%nat).
  { by rewrite length_app. }
  rewrite decide_True; [|rewrite Hlen; destruct a; [done|simpl; lia]].
  rewrite drop_app_length.
  destruct (a ++ py ".mp3") as [|n0 l] eqn:Hd.
  { simpl in Hlen. lia. }
  rewrite <- Hd in Hlen |- *. rewrite Hlen.
  replace (length a + 4 - length (py ".mp3"))%nat with (length a)
    by (change (length (py ".mp3")) with 4%nat; lia).
  by rewrite take_app_length.
Qed.

Lemma output_path_with_suffix (folder : Path) (track : Track) :
  str <$> (match with_suffix (output_path folder track) (py ".%(ext)s") with
           | Ok p => Some p | Raise _ => None end)
  = Some (output_template folder track).
Proof.
  rewrite output_path_parts, output_template_parts.
  destruct (safe_filename_cons track) as (c & s & Hs).
  rewrite with_suffix_mp3; [done|]. by rewrite Hs.
Qed.

Lemma output_path_with_suffix_ok (folder : Path) (track : Track) :
  ∃ p, with_suffix (output_path folder track) (py ".%(ext)s") = Ok p
       ∧ str p = output_template folder track.
Proof.
  pose proof (output_path_with_suffix folder track) as H.
  destruct (with_suffix _ _) as [p|e]; [|done].
  exists p. split; [done|]. by injection H.
Qed.

Section Sequential.
Context {W : Type} (E : Env W).

(** *** The manifest parser *)

Lemma parse_txt_file_ok (txt_file : Path) (s : state W) (line0 : pystr)
    (rest : list pystr) :
  env_readlines E (world s) txt_file = Ok (line0 :: rest) →
  interp E (_parse_txt_file txt_file) s
  = (Ok (if startswith (strip line0) (py "Playlist: ")
         then strip (replace (strip line0) (py "Playlist: ") [])
         else [],
         omap track_of_line (drop 5 (line0 :: rest))), s).
Proof.
  intros Hread. unfold _parse_txt_file.
  rewrite interp_try_except, interp_bindM.
  change (interp E (readlines txt_file) s)
    with (env_readlines E (world s) txt_file, s).
  rewrite Hread. cbn [fst snd]. rewrite interp_bindM.
  cbn [lift index lookup list_lookup interp fst snd ret].
  by rewrite foldl_parse_line.
Qed.

Lemma parse_txt_file_tracks (txt_file : Path) (s : state W) (lines : list pystr) :
  env_readlines E (world s) txt_file = Ok lines →
  ∃ playlist_name,
    (interp E (_parse_txt_file txt_file) s).1
    = Ok (playlist_name, omap track_of_line (drop 5 lines)).
Proof.
  intros Hread. destruct lines as [|line0 rest].
  - exists []. unfold _parse_txt_file.
    rewrite interp_try_except, interp_bindM.
    change (interp E (readlines txt_file) s)
      with (env_readlines E (world s) txt_file, s).
    rewrite Hread. cbn [fst snd]. rewrite interp_bindM.
    cbn [lift index lookup list_lookup interp fst snd ret].
    rewrite interp_bindM. reflexivity.
  - eexists. by rewrite (parse_txt_file_ok _ _ _ _ Hread).
Qed.
End Sequential.

(** ** One track, run alone *)

Section Track.
Context {W : Type} (E : Env W).

Lemma interp_exists (p : Path) (s : state W) :
  interp E (path_exists p) s = (env_exists E (world s) p, s).
Proof. reflexivity. Qed.

Lemma interp_print (m : message) (s : state W) :
  interp E (print m) s = (Ok (), emit s (world s) (EvPrint m)).
Proof. reflexivity. Qed.

Lemma interp_YoutubeDL (s : state W) :
  interp E YoutubeDL s = (env_YoutubeDL E (world s), s).
Proof. reflexivity. Qed.

Lemma interp_download (o u : pystr) (s : state W) :
  interp E (download o u) s
  = ((env_download E (world s) o u).2,
     emit s (env_download E (world s) o u).1 (EvDownload o u)).
Proof. simpl. by destruct (env_download E (world s) o u). Qed.

(** A path property holds of the run of the program in any world. *)
Lemma paths_interp {A} (wt : message → nat) (p : prog A)
    (post : nat → A → Prop) (s : state W) :
  paths wt p post → ∃ n, post n (interp E p s).1.
Proof.
  revert post s.
  induction p as [a|m k IH|x k IH|x k IH|x k IH|k IH|u k IH|o u k IH];
    intros post s Hp; simpl in *; eauto.
  - destruct (IH _ (emit s (world s) (EvPrint m)) Hp) as [n Hn]. eauto.
  - destruct (env_mkdir E (world s) x) as [w r]. eauto.
  - destruct (env_extract_info E (world s) u) as [w r]. eauto.
  - destruct (env_download E (world s) o u) as [w r]. eauto.
Qed.

Lemma download_track_returns (track : Track) (folder : Path) (s : state W) :
  (interp E (_download_track track folder) s).1 = Ok ().
Proof.
  destruct (paths_interp _ _ _ s (download_track_paths everything track folder))
    as [n [H _]].
  exact H.
Qed.

(** A track whose file is there is skipped. *)
Lemma download_track_skip (track : Track) (folder : Path) (s : state W) :
  env_exists E (world s) (output_path folder track) = Ok true →
  interp E (_download_track track folder) s
  = (Ok (), emit s (world s) (EvPrint (AlreadyExists track))).
Proof.
  intros Hex. unfold _download_track.
  rewrite interp_try_except, interp_bindM, interp_exists.
  fold (output_path folder track). rewrite Hex. cbn [fst snd].
  by rewrite interp_print.
Qed.

(** A track whose file is missing and whose search gives a locator is
    fetched with one call of the downloader, and the world is left as the
    downloader leaves it. *)
Lemma download_track_fetch (track : Track) (folder : Path) (s s1 : state W)
    (c : N) (u : pystr) :
  env_exists E (world s) (output_path folder track) = Ok false →
  interp E (_search_and_get_url track) s = (Ok (Some (c :: u)), s1) →
  env_YoutubeDL E (world s1) = Ok () →
  let o := output_template folder track in
  let w2 := (env_download E (world s1) o (c :: u)).1 in
  interp E (_download_track track folder) s
  = (Ok (),
     emit (emit s1 w2 (EvDownload o (c :: u))) w2
       (EvPrint match (env_download E (world s1) o (c :: u)).2 with
                | Ok _ => Downloaded track
                | Raise e => ErrorDownloading track e
                end)).
Proof.
  intros Hex Hsearch Hydl o w2. unfold _download_track.
  rewrite interp_try_except, interp_bindM, interp_exists.
  fold (output_path folder track). rewrite Hex. cbn [fst snd].
  rewrite interp_bindM, Hsearch. cbn [fst snd].
  destruct (output_path_with_suffix_ok folder track) as (p & Hp & Hstr).
  rewrite interp_bindM, Hp. cbn [lift interp fst snd]. rewrite Hstr. fold o.
  rewrite interp_bindM, interp_YoutubeDL, Hydl. cbn [fst snd].
  rewrite interp_try_except, interp_bindM, interp_download. cbn [fst snd].
  fold w2. destruct (env_download E (world s1) o (c :: u)).2 as [[]|e];
    cbn [fst snd]; rewrite ?interp_print; reflexivity.
Qed.
End Track.

(** *** A run in which every file is there *)

Section Skip.
Context {W : Type} (E : Env W) (folder : Path) (w0 : W).

Lemma download_track_skips (t : Track) :
  env_exists E w0 (output_path folder t) = Ok true →
  skips E w0 t (_download_track t folder).
Proof.
  intros Hex. unfold output_path in Hex. unfold _download_track.
  cbn [skips bind bindM try_except path_exists]. rewrite Hex.
  cbn [skips bind bindM try_except print]. done.
Qed.

Lemma step_prog_skips (t : Track) (p p' : M ()) (st st' : state W) :
  skips E w0 t p → world st = w0 → step_prog E p st = Some (p', st') →
  skips E w0 t p' ∧ world st' = w0 ∧
  (trace st' = trace st ∨ trace st' = trace st ++ [EvPrint (AlreadyExists t)]).
Proof.
  intros Hp Hw Hstep.
  destruct p as [a|m k|x k|x k|x k|k|u k|o u k]; simpl in Hp, Hstep; try done.
  - destruct Hp as [-> Hk]. injection Hstep as <- <-. simpl. auto.
  - injection Hstep as <- <-. rewrite Hw. auto.
  - injection Hstep as <- <-. rewrite Hw. auto.
  - injection Hstep as <- <-. rewrite Hw. auto.
Qed.

Lemma skip_run_keep (tracks : list Track) (tr0 : list event) (s s' : pool W)
    (m : move) :
  (∀ t, t ∈ tracks → env_exists E w0 (output_path folder t) = Ok true) →
  skip_run E w0 tracks tr0 s → exec E folder m s = Some s' → skip_run E w0 tracks tr0 s'.
Proof.
  intros Hex (Hw & (l & Htr & Hl) & Hsub & Hq & Hws) Hm. apply exec_moved in Hm.
  destruct Hm as [t ts Ht Hlen|t ts Ht Hlen|i t q Hwi Hqi|i t p p' st Hwi Hp|i t r Hwi];
    unfold skip_run; simpl.
  - rewrite Ht in Hsub. apply Forall_cons in Hsub as [Hin Hsub].
    repeat split; eauto.
    + apply Forall_app. split; [done|]. by repeat constructor.
    + apply Forall_app. split; [done|]. by repeat constructor.
  - rewrite Ht in Hsub. apply Forall_cons in Hsub as [Hin Hsub].
    repeat split; eauto.
    apply Forall_app. split; [done|]. by repeat constructor.
  - rewrite Hqi in Hq. apply Forall_cons in Hq as [Hin Hq].
    repeat split; eauto.
    apply Forall_insert; [done|]. simpl. by apply download_track_skips, Hex.
  - pose proof (Forall_lookup_1 _ _ _ _ Hws Hwi) as Hskip. simpl in Hskip.
    destruct (step_prog_skips _ _ _ _ _ Hskip Hw Hp) as (Hp' & Hw' & Htr').
    repeat split; eauto.
    + destruct Htr' as [->| ->].
      * eauto.
      * exists (l ++ [EvPrint (AlreadyExists t)]). rewrite Htr, app_assoc.
        split; [done|]. rewrite forallb_app, Hl. done.
    + by apply Forall_insert.
  - repeat split; eauto. by apply Forall_insert.
Qed.

Lemma skip_run_holds (tracks : list Track) (tr0 : list event) (s : pool W) :
  (∀ t, t ∈ tracks → env_exists E w0 (output_path folder t) = Ok true) →
  steps E folder (pool_init tracks (mkState w0 tr0)) s →
  skip_run E w0 tracks tr0 s.
Proof.
  intros Hex. apply (steps_invariant E folder (skip_run E w0 tracks tr0)).
  - unfold skip_run. simpl. repeat split.
    + exists []. by rewrite app_nil_r.
    + by apply Forall_forall.
    + constructor.
    + constructor.
  - intros s1 m s2. by apply skip_run_keep.
Qed.
End Skip.

(** * Main results *)

Lemma statuses_split (sel : Track → bool) (tr l : list event) :
  statuses sel (tr ++ l) = (statuses sel tr + statuses sel l)%nat.
Proof. apply sum_list_with_app. Qed.

Lemma selected_everything (l : list Track) : selected everything l = length l.
Proof. unfold selected. induction l; simpl; congruence. Qed.

(** C1, as amended.  A track whose file is there when it is handled is
    skipped: nothing is searched or downloaded, the world is left as it
    was and the only line printed says that the file exists.  Hence a run
    of the pool in a world where the file of every track of the playlist is
    there never changes the world, prints nothing but such lines, calls
    neither the search nor the downloader, and, once it is complete, has
    printed one such line for each track. *)
Theorem existing_file_is_skipped {W} (E : Env W) (folder : Path)
    (tracks : list Track) (st : state W) :
  (∀ t, t ∈ tracks → env_exists E (world st) (output_path folder t) = Ok true) →
  (∀ t, t ∈ tracks →
     interp E (_download_track t folder) st
     = (Ok (), emit st (world st) (EvPrint (AlreadyExists t))))
  ∧ ∀ s, steps E folder (pool_init tracks st) s →
      world (shared s) = world st
      ∧ ∃ l, trace (shared s) = trace st ++ l
             ∧ forallb is_skip_print l = true
             ∧ (all_done s → ∀ sel, statuses sel l = selected sel tracks).
Proof.
  intros Hex. split.
  - intros t Ht. by apply download_track_skip, Hex.
  - intros s Hs. destruct st as [w0 tr0]. simpl in *.
    destruct (skip_run_holds E folder w0 tracks tr0 s Hex Hs)
      as (Hw & (l & Htr & Hl) & _).
    split; [done|]. exists l. repeat split; try done.
    intros Hdone sel.
    pose proof (done_statuses E folder sel tracks _ s Hs Hdone) as Hst.
    simpl in Hst. rewrite Htr, statuses_split in Hst. lia.
Qed.

Lemma existing_file_is_skipped_witness :
  let E := demo_env (Raise []) [] [] in
  let st := mkState [py "mp3/Test/Song 1 - Artist.mp3"] [] in
  env_exists E (world st) (output_path test_folder (song (py "1"))) = Ok true
  ∧ interp E (_download_track (song (py "1")) test_folder) st
    = (Ok (), emit st (world st) (EvPrint (AlreadyExists (song (py "1"))))).
Proof.
  intros E st. split; [reflexivity|].
  apply (existing_file_is_skipped E test_folder [song (py "1")] st).
  - intros t Ht. apply list_elem_of_singleton in Ht. subst t. reflexivity.
  - apply list_elem_of_singleton. reflexivity.
Defined.

(** C1 as stated fails: a track that was not found leaves no file, so a
    second run on the same playlist and the same folder does not skip it
    but searches for it again. *)
Lemma second_run_searches_again :
  let E := demo_env (Raise []) [] [] in
  let t := song (py "1") in
  match play E test_folder (one_track true 4) (pool_init [t] (mkState [] [])) with
  | Some first =>
      all_done first
      ∧ match play E test_folder (one_track true 4) (pool_init [t] (shared first)) with
        | Some second =>
            all_done second
            ∧ trace (shared second)
              = trace (shared first)
                ++ [EvSearch (py "ytsearch:Song 1 Artist"); EvPrint (CouldNotFind t)]
            ∧ count_outcome Skipped (trace (shared second)) = 0%nat
        | None => False
        end
  | None => False
  end.
Proof. vm_compute. repeat split. Qed.

(** C2.  The name [_get_safe_filename] gives to a track is never empty and
    holds none of the characters of the class; it is the cleaned title, the
    separator and the cleaned artists, so that a track whose title and
    artists are empty or made of such characters only is named by the
    separator alone. *)
Theorem safe_filename_total (track : Track) :
  _get_safe_filename track ≠ []
  ∧ Forall (fun c => c ∉ invalid_chars) (_get_safe_filename track)
  ∧ _get_safe_filename track
    = re_sub_invalid (title track) ++ py " - " ++ re_sub_invalid (artists track)
  ∧ _get_safe_filename (mkTrack [] (py "<?*>") (album track)) = py " - ".
Proof.
  destruct (safe_filename_facts track) as (Hne & Hclean & _).
  repeat split; try done.
  - apply Forall_forall. intros c Hc Hin. by apply (Hclean c).
  - apply safe_filename_split.
Qed.

(** C3.  The tracks of a manifest are, in order, those of its lines after
    the first five that, once trimmed, split at the separator into exactly
    three segments, with the segments as title, artists and album; every
    other line gives nothing.  In particular a line that reads, once
    trimmed, as three texts without hyphen joined by the separator gives the
    track of these three texts. *)
Theorem parser_three_segments {W} (E : Env W) (txt_file : Path) (s : state W)
    (lines : list pystr) :
  env_readlines E (world s) txt_file = Ok lines →
  (∃ playlist_name,
     (interp E (_parse_txt_file txt_file) s).1
     = Ok (playlist_name, omap track_of_line (drop 5 lines)))
  ∧ (∀ line a b c,
       hyphen ∉ a → hyphen ∉ b → hyphen ∉ c →
       strip line = a ++ py " - " ++ b ++ py " - " ++ c →
       track_of_line line = Some (mkTrack a b c))
  ∧ (∀ line,
       length (split (strip line) (py " - ")) ≠ 3%nat → track_of_line line = None).
Proof.
  intros Hread. split; [by apply parse_txt_file_tracks|]. split.
  - apply track_of_line_three.
  - apply track_of_line_other.
Qed.

Lemma parser_three_segments_witness :
  let E := demo_env (Ok test_manifest) [] [] in
  let txt := mkPath [] [py "txt"; py "Test.txt"] in
  env_readlines E [] txt = Ok test_manifest
  ∧ ∃ playlist_name,
      (interp E (_parse_txt_file txt) (mkState [] [])).1
      = Ok (playlist_name,
            [mkTrack (py "Song A") (py "Artist B") (py "Album C")]).
Proof.
  intros E txt. split; [reflexivity|].
  apply (parser_three_segments E txt (mkState [] []) test_manifest).
  reflexivity.
Defined.

(** C4, as amended.  When the pool has run a playlist to the end, the
    trace holds, for every selection of tracks, as many new status lines
    about selected tracks as the playlist has selected tracks: one line for
    each track, none lost.  Every task has returned [None]: what the run
    gives back holds no outcome and no count. *)
Theorem every_track_one_status_line {W} (E : Env W) (folder : Path)
    (tracks : list Track) (st : state W) (s : pool W) :
  steps E folder (pool_init tracks st) s → all_done s →
  (∀ sel, statuses sel (trace (shared s))
          = (statuses sel (trace st) + selected sel tracks)%nat)
  ∧ Forall (fun tr => tr.2 = Ok ()) (results s).
Proof.
  intros Hs Hdone. split.
  - intros sel. by apply (done_statuses E folder).
  - apply (pool_sound E folder everything tracks st s Hs).
Qed.

Lemma every_track_one_status_line_witness :
  let E := demo_env (Raise []) four_found [] in
  match play E test_folder five_schedule (pool_init five_tracks (mkState [] [])) with
  | Some s =>
      all_done s
      ∧ statuses everything (trace (shared s)) = 5%nat
      ∧ statuses (fun t => bool_decide (title t = py "Song 3")) (trace (shared s))
        = 1%nat
  | None => False
  end.
Proof.
  intros E.
  destruct (play E test_folder five_schedule (pool_init five_tracks (mkState [] [])))
    as [s|] eqn:Hplay; [|by vm_compute in Hplay].
  assert (Hdone : all_done s).
  { vm_compute in Hplay. injection Hplay as <-. by repeat split. }
  split; [done|].
  destruct (every_track_one_status_line E test_folder five_tracks (mkState [] []) s
              (play_steps E test_folder _ _ _ Hplay) Hdone) as [Hst _].
  split; rewrite Hst; reflexivity.
Defined.

(** C4 as stated fails: a run in which the track is downloaded and a run in
    which it is not found give back the same values, so what is returned is
    no report of the outcomes. *)
Lemma no_report_returned :
  let t := song (py "1") in
  let init := pool_init [t] (mkState [] []) in
  match play (demo_env (Raise []) [found (py "1")] []) test_folder
             (one_track true 6) init,
        play (demo_env (Raise []) [] []) test_folder (one_track true 4) init with
  | Some a, Some b =>
      all_done a ∧ all_done b
      ∧ results a = results b ∧ gather a = gather b
      ∧ count_outcome Fetched (trace (shared a)) = 1%nat
      ∧ count_outcome Fetched (trace (shared b)) = 0%nat
      ∧ count_outcome NotFound (trace (shared b)) = 1%nat
  | _, _ => False
  end.
Proof. vm_compute. repeat split. Qed.

(** C5.  Whatever the search and the downloader answer or raise,
    [_download_track] returns normally.  So at every point of a run of the
    pool every resolved future holds a normal return and [gather] has
    nothing to raise; the run can always be taken to its end, and at the
    end every track of the playlist has its status line. *)
Theorem track_failures_stay_local {W} (E : Env W) (folder : Path)
    (tracks : list Track) (st : state W) (s : pool W) :
  steps E folder (pool_init tracks st) s →
  (∀ t st', (interp E (_download_track t folder) st').1 = Ok ())
  ∧ Forall (fun tr => tr.2 = Ok ()) (results s)
  ∧ gather s = Ok ()
  ∧ (∃ s', steps E folder s s' ∧ all_done s')
  ∧ (all_done s →
     statuses everything (trace (shared s))
     = (statuses everything (trace st) + length tracks)%nat).
Proof.
  intros Hs.
  destruct (pool_sound E folder everything tracks st s Hs) as [_ Hres].
  split; [|split; [|split; [|split]]].
  - intros t st'. apply download_track_returns.
  - done.
  - by apply first_exception_ok.
  - by eapply completes.
  - intros Hdone. rewrite <- selected_everything.
    by apply (done_statuses E folder).
Qed.

(** Five tracks, the third of which the search does not find: the other
    four are downloaded and one line says that a track was not found. *)
Lemma track_failures_stay_local_witness :
  let E := demo_env (Raise []) four_found [] in
  match play E test_folder five_schedule (pool_init five_tracks (mkState [] [])) with
  | Some s =>
      all_done s ∧ gather s = Ok ()
      ∧ count_outcome NotFound (trace (shared s)) = 1%nat
      ∧ count_outcome Fetched (trace (shared s)) = 4%nat
      ∧ statuses everything (trace (shared s)) = 5%nat
  | None => False
  end.
Proof.
  intros E.
  destruct (play E test_folder five_schedule (pool_init five_tracks (mkState [] [])))
    as [s|] eqn:Hplay; [|by vm_compute in Hplay].
  destruct (track_failures_stay_local E test_folder five_tracks (mkState [] []) s
              (play_steps E test_folder _ _ _ Hplay))
    as (_ & _ & Hgather & _ & Hall).
  vm_compute in Hplay. injection Hplay as <-.
  split; [by repeat split|]. split; [exact Hgather|].
  repeat split.
Defined.

(** C6.  [_search_and_get_url] asks the search index once, for the title,
    a space and the artists behind the search prefix, and answers from the
    first entry of the result alone: its [url], or else the watch address
    of its [id].  With no result, or when the library raises, it answers
    [None]; nothing is asked a second time. *)
Theorem resolver_first_result {W} (E : Env W) (track : Track) (s : state W) :
  let url := py "ytsearch:" ++ (title track ++ py " " ++ artists track) in
  let out := interp E (_search_and_get_url track) s in
  match env_YoutubeDL E (world s) with
  | Raise e => out = (Ok None, emit s (world s) (EvPrint (ErrorSearching track e)))
  | Ok _ =>
      let '(w, r) := env_extract_info E (world s) url in
      let failed e :=
        (Ok None, emit (emit s w (EvSearch url)) w (EvPrint (ErrorSearching track e))) in
      match r with
      | Ok (Some {| entries := Some (video :: _) |}) =>
          match video_url_of video with
          | Ok u => out = (Ok (Some u), emit s w (EvSearch url))
          | Raise e => out = failed e
          end
      | Ok _ => out = (Ok None, emit s w (EvSearch url))
      | Raise e => out = failed e
      end
  end.
Proof. apply search_and_get_url_run. Qed.

(** C7: the program at the manifest of a playlist named AC/DC.  The name
    reaches [mkdir] as it is written in the manifest: the folder asked for
    is two levels below the target folder, its parent is missing, and the
    error leaves [process_txt_folder], where nothing catches it.  The
    exporter's own [_sanitize_filename] names the same playlist AC-DC. *)
Theorem playlist_folder_not_sanitized :
  let E := demo_env (Ok nested_manifest) [] [] in
  let mp3 := mkPath [] [py "mp3"] in
  interp E (process_txt_file mp3 (mkPath [] [py "txt"; py "ACDC.txt"]))
         (mkState [py "mp3"] [])
  = (Raise (py "No such file or directory"),
     mkState [py "mp3"] [EvMkdir (mkPath [] [py "mp3"; py "AC"; py "DC"])])
  ∧ div mp3 (py "AC/DC") ≠ div mp3 (_sanitize_filename (py "AC/DC"))
  ∧ _sanitize_filename (py "AC/DC") = py "AC-DC"
  ∧ re_sub_invalid (py "AC/DC") = py "ACDC".
Proof. intros E mp3. repeat split. by vm_compute. Qed.

(** C8, as amended.  A track whose file is missing and for which the search
    gives a locator is fetched by one call of the downloader, with the
    template made of the playlist folder, the safe name and the extension
    placeholder.  The program stages nothing, renames nothing and removes
    nothing: the world after the fetch is the one the downloader left,
    whether it returned or raised, and the status line says which. *)
Theorem fetch_leaves_what_downloader_left {W} (E : Env W) (track : Track)
    (folder : Path) (s s1 : state W) (c : N) (u : pystr) :
  env_exists E (world s) (output_path folder track) = Ok false →
  interp E (_search_and_get_url track) s = (Ok (Some (c :: u)), s1) →
  env_YoutubeDL E (world s1) = Ok () →
  let o := output_template folder track in
  let w2 := (env_download E (world s1) o (c :: u)).1 in
  interp E (_download_track track folder) s
  = (Ok (),
     emit (emit s1 w2 (EvDownload o (c :: u))) w2
       (EvPrint match (env_download E (world s1) o (c :: u)).2 with
                | Ok _ => Downloaded track
                | Raise e => ErrorDownloading track e
                end)).
Proof. apply download_track_fetch. Qed.

Lemma fetch_leaves_what_downloader_left_witness :
  let E := demo_env (Raise []) [found (py "1")] [] in
  let t := song (py "1") in
  let s := mkState [py "mp3"; py "mp3/Test"] [] in
  env_exists E (world s) (output_path test_folder t) = Ok false
  ∧ interp E (_download_track t test_folder) s
    = (Ok (),
       mkState [py "mp3/Test/Song 1 - Artist.mp3"; py "mp3"; py "mp3/Test"]
         [EvSearch (py "ytsearch:Song 1 Artist");
          EvDownload (py "mp3/Test/Song 1 - Artist.%(ext)s")
                     (py "https://www.youtube.com/watch?v=id1");
          EvPrint (Downloaded t)]).
Proof.
  intros E t s. split; [reflexivity|].
  apply (fetch_leaves_what_downloader_left E t test_folder s
           (mkState (world s) [EvSearch (py "ytsearch:Song 1 Artist")])
           104 (py "ttps://www.youtube.com/watch?v=id1"));
    reflexivity.
Defined.

(** C8 as stated fails: when the downloader raises after it has written the
    file of the final name, the program reports the error and the file
    stays. *)
Lemma failed_fetch_leaves_final_file :
  let E := demo_env (Raise []) [found (py "1")]
                    [py "https://www.youtube.com/watch?v=id1"] in
  let t := song (py "1") in
  let out := interp E (_download_track t test_folder)
                    (mkState [py "mp3"; py "mp3/Test"] []) in
  env_exists E [py "mp3"; py "mp3/Test"] (output_path test_folder t) = Ok false
  ∧ count_outcome FetchFailed (trace out.2) = 1%nat
  ∧ count_outcome Fetched (trace out.2) = 0%nat
  ∧ env_exists E (world out.2) (output_path test_folder t) = Ok true.
Proof. vm_compute. repeat split. Qed.

(** C9.  At every point of a run of the pool at most [max_workers], that
    is three, workers run an item, and the workers inside a call of the
    search and download library are among them. *)
Theorem in_flight_bounded {W} (E : Env W) (folder : Path) (tracks : list Track)
    (st : state W) (s : pool W) :
  steps E folder (pool_init tracks st) s →
  (in_flight s ≤ busy s)%nat ∧ (busy s ≤ max_workers)%nat ∧ max_workers = 3%nat.
Proof. apply busy_capped. Qed.

Lemma in_flight_bounded_witness :
  let E := demo_env (Raise []) four_found [] in
  match play E test_folder
          [Submit true; Submit true; Submit true; Take 0; Take 1; Take 2;
           Submit false; Call 0; Call 1; Call 2]
          (pool_init five_tracks (mkState [] [])) with
  | Some s => in_flight s = 3%nat ∧ (in_flight s ≤ busy s)%nat
              ∧ (busy s ≤ max_workers)%nat ∧ max_workers = 3%nat
  | None => False
  end.
Proof.
  intros E.
  destruct (play E test_folder _ (pool_init five_tracks (mkState [] [])))
    as [s|] eqn:Hplay; [|by vm_compute in Hplay].
  split.
  - vm_compute in Hplay. by injection Hplay as <-.
  - apply (in_flight_bounded E test_folder five_tracks (mkState [] []) s).
    by apply (play_steps E test_folder _ _ _ Hplay).
Defined.

(** C10.  When the trimmed first line of a manifest starts with the prefix,
    the playlist name is that line with every occurrence of the prefix
    taken out, trimmed again.  For the first line of the example the name
    is not what is written after the prefix. *)
Theorem playlist_name_every_occurrence {W} (E : Env W) (txt_file : Path)
    (s : state W) (line0 : pystr) (rest : list pystr) :
  env_readlines E (world s) txt_file = Ok (line0 :: rest) →
  startswith (strip line0) (py "Playlist: ") = true →
  (∃ tracks,
     (interp E (_parse_txt_file txt_file) s).1
     = Ok (strip (replace (strip line0) (py "Playlist: ") []), tracks))
  ∧ strip (replace (strip (py "Playlist: My Playlist: Mix" ++ nl))
                   (py "Playlist: ") [])
    = py "My Mix"
  ∧ py "My Mix" ≠ py "My Playlist: Mix".
Proof.
  intros Hread Hstart. split; [|by split].
  rewrite (parse_txt_file_ok E _ _ _ _ Hread), Hstart. eauto.
Qed.

Lemma playlist_name_every_occurrence_witness :
  let line0 := py "Playlist: My Playlist: Mix" ++ nl in
  let E := demo_env (Ok [line0]) [] [] in
  let txt := mkPath [] [py "txt"; py "Mix.txt"] in
  startswith (strip line0) (py "Playlist: ") = true
  ∧ ∃ tracks,
      (interp E (_parse_txt_file txt) (mkState [] [])).1 = Ok (py "My Mix", tracks).
Proof.
  intros line0 E txt. split; [reflexivity|].
  apply (playlist_name_every_occurrence E txt (mkState [] []) line0 []);
    reflexivity.
Defined.

(** * Further properties *)

(** ** Lines written by [Track.__str__] and read by the parser *)

Lemma lstrip_length (s : pystr) : (length (lstrip s) ≤ length s)%nat.
Proof.
  induction s as [|c s IH]; simpl; [lia|]. destruct (isspace c); simpl; lia.
Qed.

Lemma lstrip_fixed_head (c : N) (s : pystr) :
  lstrip (c :: s) = c :: s → isspace c = false.
Proof.
  simpl. destruct (isspace c); [|done]. intros H.
  pose proof (lstrip_length s) as Hl. rewrite H in Hl. simpl in Hl. lia.
Qed.

Lemma lstrip_app_fixed (x y : pystr) :
  lstrip x = x → x ≠ [] → lstrip (x ++ y) = x ++ y.
Proof.
  destruct x as [|c x]; [done|]. intros H _.
  apply lstrip_fixed_head in H. simpl. by rewrite H.
Qed.

Lemma rstrip_fixed_reverse (x : pystr) :
  rstrip x = x → lstrip (reverse x) = reverse x.
Proof.
  unfold rstrip. intros H. apply (f_equal reverse) in H.
  by rewrite reverse_involutive in H.
Qed.

(** A text without whitespace at its ends keeps them when a line end is
    written after it and the line is trimmed. *)
Lemma strip_line (x y z : pystr) :
  lstrip x = x → x ≠ [] → rstrip z = z → z ≠ [] →
  strip (x ++ y ++ z ++ nl) = x ++ y ++ z.
Proof.
  intros Hx Hxne Hz Hzne. unfold strip.
  rewrite lstrip_app_fixed by done. unfold rstrip.
  assert (Hrev : reverse (x ++ y ++ z ++ nl)
                 = 10 :: (reverse z ++ reverse (x ++ y))).
  { rewrite !app_assoc, reverse_app. change (reverse nl) with [10].
    by rewrite reverse_app. }
  rewrite Hrev. cbn [lstrip]. change (isspace 10) with true. cbn iota.
  rewrite lstrip_app_fixed.
  - by rewrite reverse_app, !reverse_involutive, <- app_assoc.
  - by apply rstrip_fixed_reverse.
  - intros H. apply (f_equal reverse) in H.
    by rewrite reverse_involutive in H.
Qed.


Lemma track_of_line_str (t : Track) :
  hyphen ∉ title t → hyphen ∉ artists t → hyphen ∉ album t →
  lstrip (title t) = title t → title t ≠ [] →
  rstrip (album t) = album t → album t ≠ [] →
  track_of_line (Track_str t ++ nl) = Some t.
Proof.
  intros Ht Har Hal Hlt Htne Hra Hane.
  assert (Hs : strip (Track_str t ++ nl) = Track_str t).
  { unfold Track_str.
    pose proof (strip_line (title t) (py " - " ++ artists t ++ py " - ") (album t)
                  Hlt Htne Hra Hane) as H.
    rewrite <- !app_assoc in H. rewrite <- !app_assoc. exact H. }
  rewrite (track_of_line_three _ (title t) (artists t) (album t)); try done.
  by destruct t.
Qed.

(** X1.  The line [Track.__str__] writes for a track is read back by the
    parser as that track, when no field holds a hyphen, the title is not
    empty and does not start with whitespace, and the album is not empty
    and does not end with whitespace. *)
Theorem track_line_round_trip (t : Track) (tracks : list Track) :
  hyphen ∉ title t → hyphen ∉ artists t → hyphen ∉ album t →
  lstrip (title t) = title t → title t ≠ [] →
  rstrip (album t) = album t → album t ≠ [] →
  parse_line tracks (Track_str t ++ nl) = tracks ++ [t].
Proof.
  intros Ht Har Hal Hlt Htne Hra Hane.
  rewrite parse_line_spec. f_equal. by rewrite track_of_line_str.
Qed.

Lemma track_line_round_trip_witness :
  let t := mkTrack (py "Mr. Brightside") (py "The Killers, Friends") (py "Hot Fuss") in
  parse_line [] (Track_str t ++ nl) = [t].
Proof.
  intros t. apply (track_line_round_trip t []);
    first [ done | apply (bool_decide_unpack _); reflexivity ].
Defined.



(** ** The manifests of a folder *)

Section Folder.
Context {W : Type} (E : Env W).

Lemma parse_txt_file_failed (txt_file : Path) (s : state W) :
  match env_readlines E (world s) txt_file with
  | Raise e =>
      interp E (_parse_txt_file txt_file) s
      = (Ok ([], []), emit s (world s) (EvPrint (ErrorReadingFile (name txt_file) e)))
  | Ok [] =>
      interp E (_parse_txt_file txt_file) s
      = (Ok ([], []),
         emit s (world s)
           (EvPrint (ErrorReadingFile (name txt_file) (py "list index out of range"))))
  | Ok (_ :: _) => True
  end.
Proof.
  unfold _parse_txt_file.
  rewrite interp_try_except, interp_bindM.
  change (interp E (readlines txt_file) s)
    with (env_readlines E (world s) txt_file, s).
  destruct (env_readlines E (world s) txt_file) as [[|line0 rest]|e];
    cbn [fst snd]; try done.
  all: rewrite ?interp_bindM; cbn [lift index lookup list_lookup interp fst snd];
    rewrite ?interp_bindM; reflexivity.
Qed.

(** X3.  [_parse_txt_file] never raises and leaves the world as it is.  A
    manifest that cannot be read, or that is empty, gives the empty
    playlist name and no track, and one line reports the error; any other
    manifest is parsed without a print. *)
Theorem parser_never_raises (txt_file : Path) (s : state W) :
  let out := interp E (_parse_txt_file txt_file) s in
  (∃ v, out.1 = Ok v) ∧ world out.2 = world s
  ∧ match env_readlines E (world s) txt_file with
    | Raise e =>
        out = (Ok ([], []),
               emit s (world s) (EvPrint (ErrorReadingFile (name txt_file) e)))
    | Ok [] =>
        out = (Ok ([], []),
               emit s (world s)
                 (EvPrint (ErrorReadingFile (name txt_file)
                             (py "list index out of range"))))
    | Ok (_ :: _) => out.2 = s
    end.
Proof.
  intros out. subst out.
  pose proof (parse_txt_file_failed txt_file s) as Hf.
  destruct (env_readlines E (world s) txt_file) as [[|line0 rest]|e] eqn:Hr.
  - rewrite Hf. eauto.
  - rewrite (parse_txt_file_ok E _ _ _ _ Hr). eauto.
  - rewrite Hf. eauto.
Qed.

(** The run of the loop body of [process_txt_folder], case by case. *)
Lemma process_txt_file_run (mp3_folder txt_file : Path) (s : state W) :
  interp E (process_txt_file mp3_folder txt_file) s
  = match interp E (_parse_txt_file txt_file) s with
    | (Ok ([], _), s1) =>
        (Ok None, emit s1 (world s1) (EvPrint (CouldNotDetermine txt_file)))
    | (Ok (c :: n, tracks), s1) =>
        let folder := div mp3_folder (c :: n) in
        match env_mkdir E (world s1) folder with
        | (w, Ok _) =>
            (Ok (Some (folder, tracks)),
             emit (emit (emit s1 w (EvMkdir folder)) w
                     (EvPrint (FoundTracks (length tracks) (c :: n))))
                  w (EvPrint (SavedIn folder)))
        | (w, Raise e) => (Raise e, emit s1 w (EvMkdir folder))
        end
    | (Raise e, s1) => (Raise e, s1)
    end.
Proof.
  unfold process_txt_file. rewrite interp_bindM.
  destruct (interp E (_parse_txt_file txt_file) s) as [[[[|c n] tracks]|e] s1];
    cbn [fst snd]; try done.
  cbn [truthy negb]. rewrite interp_bindM.
  change (interp E (mkdir ?p) s1)
    with (let '(w, r) := env_mkdir E (world s1) p in
          interp E (Ret r) (emit s1 w (EvMkdir p))).
  destruct (env_mkdir E (world s1) (div mp3_folder (c :: n))) as [w [[]|e]];
    cbn [interp fst snd]; [|done].
  rewrite interp_bindM. cbn [print interp fst snd].
  rewrite interp_bindM. reflexivity.
Qed.

(** X4.  A manifest that cannot be read, is empty, or whose trimmed first
    line does not start with the playlist prefix is passed over: no folder
    is made, nothing is searched or downloaded, the world is left as it is,
    and the last line printed says that the playlist name could not be
    determined. *)
Theorem manifest_without_name_is_passed_over (mp3_folder txt_file : Path)
    (s : state W) :
  match env_readlines E (world s) txt_file with
  | Ok (line0 :: _) => startswith (strip line0) (py "Playlist: ") = false
  | _ => True
  end →
  let out := interp E (process_txt_file mp3_folder txt_file) s in
  out.1 = Ok None ∧ world out.2 = world s
  ∧ ∃ l, trace out.2 = trace s ++ l ++ [EvPrint (CouldNotDetermine txt_file)]
         ∧ (l = [] ∨ ∃ e, l = [EvPrint (ErrorReadingFile (name txt_file) e)]).
Proof.
  intros Hhead out. subst out. rewrite process_txt_file_run.
  pose proof (parse_txt_file_failed txt_file s) as Hf.
  destruct (env_readlines E (world s) txt_file) as [[|line0 rest]|e] eqn:Hr.
  - rewrite Hf. cbn. repeat split. eexists. split; [|right; eauto].
    by rewrite <- app_assoc.
  - rewrite (parse_txt_file_ok E _ _ _ _ Hr), Hhead. cbn. repeat split.
    exists []. split; [done|by left].
  - rewrite Hf. cbn. repeat split. eexists. split; [|right; eauto].
    by rewrite <- app_assoc.
Qed.

End Folder.

Lemma manifest_without_name_is_passed_over_witness :
  let E := demo_env (Ok [py "My favourites" ++ nl; py "A - B - C" ++ nl]) [] [] in
  let txt := mkPath [] [py "txt"; py "x.txt"] in
  let s := mkState [py "mp3"] [] in
  let out := interp E (process_txt_file (mkPath [] [py "mp3"]) txt) s in
  out.1 = Ok None ∧ world out.2 = world s
  ∧ ∃ l, trace out.2 = trace s ++ l ++ [EvPrint (CouldNotDetermine txt)]
         ∧ (l = [] ∨ ∃ e, l = [EvPrint (ErrorReadingFile (name txt) e)]).
Proof.
  intros E txt s.
  apply (manifest_without_name_is_passed_over E (mkPath [] [py "mp3"]) txt s).
  reflexivity.
Defined.

Section FolderRun.
Context {W : Type} (E : Env W) (mp3_folder : Path).

Lemma parse_txt_file_value (txt_file : Path) (s : state W) :
  ∃ v s1, interp E (_parse_txt_file txt_file) s = (Ok v, s1).
Proof.
  destruct (parser_never_raises E txt_file s) as ([v Hv] & _).
  destruct (interp E (_parse_txt_file txt_file) s) as [r s1]. simpl in Hv.
  subst r. eauto.
Qed.

(** The loop body raises only what [mkdir] raised, right after the call. *)
Lemma process_txt_file_raises (txt_file : Path) (s s1 : state W) (e : pystr) :
  interp E (process_txt_file mp3_folder txt_file) s = (Raise e, s1) →
  ∃ tr p w, trace s1 = tr ++ [EvMkdir p]
            ∧ env_mkdir E w p = (world s1, Raise e).
Proof.
  rewrite process_txt_file_run.
  destruct (parse_txt_file_value txt_file s) as ([[|c n] tracks] & s0 & ->).
  - done.
  - cbn zeta.
    destruct (env_mkdir E (world s0) (div mp3_folder (c :: n))) as [w [[]|e']] eqn:Hm;
      [done|].
    intros [= <- <-]. simpl. eauto.
Qed.

(** X5.  The loop over the manifests can always be run to its end or to
    the exception that leaves it. *)
Theorem folder_run_exists (txt_files : list Path) (st : state W) :
  ∃ r st', folder_run E mp3_folder txt_files st r st'.
Proof.
  revert st. induction txt_files as [|f fs IH]; intros st.
  - eexists _, _. constructor.
  - destruct (interp E (process_txt_file mp3_folder f) st)
      as [[[[folder tracks]|]|e] st1] eqn:Hf.
    + destruct (completes E folder tracks st1 _ (steps_refl E folder _))
        as (s & Hs & Hdone).
      destruct (pool_sound E folder everything tracks st1 s Hs) as [_ Hres].
      destruct (IH (shared s)) as (r & st2 & Hrun).
      exists r, st2. eapply folder_pool; eauto.
      by apply first_exception_ok.
    + destruct (IH st1) as (r & st2 & Hrun).
      exists r, st2. by eapply folder_continue.
    + exists (Raise e), st1. by eapply folder_raise.
Qed.

(** X6.  The only exception that leaves the loop over the manifests is one
    that [mkdir] raised: when the loop ends with an exception, the last
    thing done was a [mkdir], and the exception is the one it raised.  No
    failure of a search or of a download ends the run. *)
Theorem folder_run_fails_only_through_mkdir (txt_files : list Path)
    (st st' : state W) (e : pystr) :
  folder_run E mp3_folder txt_files st (Raise e) st' →
  ∃ tr p w, trace st' = tr ++ [EvMkdir p]
            ∧ env_mkdir E w p = (world st', Raise e).
Proof.
  remember (Raise e) as r eqn:Hr. intros Hrun.
  induction Hrun as [st|f fs st st1 r st2 Hf _ IH|f fs st e' st1 Hf
                    |f fs st folder tracks st1 s r st2 Hf Hs Hdone Hg _ IH
                    |f fs st folder tracks st1 s e' Hf Hs Hdone Hg].
  - done.
  - by apply IH.
  - injection Hr as ->. by eapply process_txt_file_raises.
  - by apply IH.
  - destruct (pool_sound E folder everything tracks st1 s Hs) as [_ Hres].
    unfold gather in Hg. by rewrite (first_exception_ok _ Hres) in Hg.
Qed.

(** X7.  When [mkdir] raises for the folder of a playlist, the run ends
    there, whatever manifests follow: none of them is read, and the state
    is the one the failed [mkdir] left. *)
Theorem failed_mkdir_ends_the_run (txt_file : Path) (txt_files : list Path)
    (st st1 st' : state W) (c : N) (n : pystr) (tracks : list Track)
    (w : W) (e : pystr) (r : Result ()) :
  interp E (_parse_txt_file txt_file) st = (Ok (c :: n, tracks), st1) →
  env_mkdir E (world st1) (div mp3_folder (c :: n)) = (w, Raise e) →
  folder_run E mp3_folder (txt_file :: txt_files) st r st' →
  r = Raise e ∧ st' = emit st1 w (EvMkdir (div mp3_folder (c :: n))).
Proof.
  intros Hparse Hmk Hrun.
  assert (Hf : interp E (process_txt_file mp3_folder txt_file) st
               = (Raise e, emit st1 w (EvMkdir (div mp3_folder (c :: n))))).
  { rewrite process_txt_file_run, Hparse. cbn zeta. by rewrite Hmk. }
  inversion Hrun as [|? ? ? ? ? ? H|? ? ? ? ? H|? ? ? ? ? ? ? ? ? H|? ? ? ? ? ? ? ? H];
    subst; rewrite Hf in H; try discriminate H.
  by injection H as <- <-.
Qed.
End FolderRun.

Lemma folder_run_nested :
  let E := demo_env (Ok nested_manifest) [found (py "1")] [] in
  let mp3 := mkPath [] [py "mp3"] in
  let txt := mkPath [] [py "txt"; py "ACDC.txt"] in
  folder_run E mp3 [txt; txt] (mkState [py "mp3"] [])
    (Raise (py "No such file or directory"))
    (mkState [py "mp3"] [EvMkdir (mkPath [] [py "mp3"; py "AC"; py "DC"])]).
Proof. intros E mp3 txt. apply folder_raise. reflexivity. Qed.

Lemma folder_run_fails_only_through_mkdir_witness :
  let E := demo_env (Ok nested_manifest) [found (py "1")] [] in
  let st' := mkState [py "mp3"] [EvMkdir (mkPath [] [py "mp3"; py "AC"; py "DC"])] in
  ∃ tr p w, trace st' = tr ++ [EvMkdir p]
            ∧ env_mkdir E w p = (world st', Raise (py "No such file or directory")).
Proof.
  intros E st'.
  apply (folder_run_fails_only_through_mkdir E (mkPath [] [py "mp3"])
           [mkPath [] [py "txt"; py "ACDC.txt"]; mkPath [] [py "txt"; py "ACDC.txt"]]
           (mkState [py "mp3"] [])).
  apply folder_run_nested.
Defined.

Lemma failed_mkdir_ends_the_run_witness :
  let E := demo_env (Ok nested_manifest) [found (py "1")] [] in
  let mp3 := mkPath [] [py "mp3"] in
  let txt := mkPath [] [py "txt"; py "ACDC.txt"] in
  let st := mkState [py "mp3"] [] in
  let r : Result () := Raise (py "No such file or directory") in
  let st' := mkState [py "mp3"] [EvMkdir (mkPath [] [py "mp3"; py "AC"; py "DC"])] in
  folder_run E mp3 [txt; txt] st r st'
  ∧ r = Raise (py "No such file or directory")
  ∧ st' = emit st [py "mp3"] (EvMkdir (div mp3 (py "AC/DC"))).
Proof.
  intros E mp3 txt st r st'. split; [apply folder_run_nested|].
  apply (failed_mkdir_ends_the_run E mp3 txt [txt] st st st' 65 (py "C/DC") []
           [py "mp3"] (py "No such file or directory") r).
  - reflexivity.
  - reflexivity.
  - apply folder_run_nested.
Defined.

(** ** More on one track *)

Section OneTrack.
Context {W : Type} (E : Env W).

(** X8.  A track for which the search gives no locator is not handed to
    the downloader: the run ends with the line that no video was found,
    in the state the search left. *)
Theorem unfound_track_is_not_downloaded (track : Track) (folder : Path)
    (s s1 : state W) :
  env_exists E (world s) (output_path folder track) = Ok false →
  interp E (_search_and_get_url track) s = (Ok None, s1) →
  interp E (_download_track track folder) s
  = (Ok (), emit s1 (world s1) (EvPrint (CouldNotFind track))).
Proof.
  intros Hex Hsearch. unfold _download_track.
  rewrite interp_try_except, interp_bindM, interp_exists.
  fold (output_path folder track). rewrite Hex. cbn [fst snd].
  rewrite interp_bindM, Hsearch. cbn [fst snd].
  by rewrite interp_print.
Qed.

(** X9.  When the check for the file raises, the track ends with the line
    for an error in the download process; nothing is searched or
    downloaded and the world is left as it is. *)
Theorem failed_exists_check_is_reported (track : Track) (folder : Path)
    (s : state W) (e : pystr) :
  env_exists E (world s) (output_path folder track) = Raise e →
  interp E (_download_track track folder) s
  = (Ok (), emit s (world s) (EvPrint (ErrorInProcess track e))).
Proof.
  intros Hex. unfold _download_track.
  rewrite interp_try_except, interp_bindM, interp_exists.
  fold (output_path folder track). rewrite Hex. cbn [fst snd].
  by rewrite interp_print.
Qed.
End OneTrack.

Lemma unfound_track_is_not_downloaded_witness :
  let E := demo_env (Raise []) [] [] in
  let t := song (py "1") in
  interp E (_download_track t test_folder) (mkState [] [])
  = (Ok (), mkState [] [EvSearch (py "ytsearch:Song 1 Artist");
                        EvPrint (CouldNotFind t)]).
Proof.
  intros E t.
  apply (unfound_track_is_not_downloaded E t test_folder (mkState [] [])
           (mkState [] [EvSearch (py "ytsearch:Song 1 Artist")]));
    reflexivity.
Defined.

Lemma failed_exists_check_is_reported_witness :
  let E := mkEnv (fun _ _ => Raise []) (fun (_ : fs) _ => Raise (py "File name too long"))
             (fun w _ => (w, Ok ())) (fun _ => Ok ())
             (fun w _ => (w, Ok None)) (fun w _ _ => (w, Ok ())) in
  let t := song (py "1") in
  interp E (_download_track t test_folder) (mkState [] [])
  = (Ok (), mkState [] [EvPrint (ErrorInProcess t (py "File name too long"))]).
Proof.
  intros E t.
  apply (failed_exists_check_is_reported E t test_folder (mkState [] [])
           (py "File name too long")).
  reflexivity.
Defined.

(** ** The file of a track *)

(** X10.  The file of a track is a direct child of the playlist folder,
    whatever the title and the artists hold: its name is the safe name with
    the extension, and its parent is the folder. *)
Theorem track_file_stays_in_folder (folder : Path) (track : Track) :
  parent (output_path folder track) = folder
  ∧ name (output_path folder track) = _get_safe_filename track ++ py ".mp3"
  ∧ slash ∉ name (output_path folder track).
Proof.
  rewrite output_path_parts. unfold parent, name. cbn [root parts].
  rewrite removelast_last, last_snoc. cbn [default].
  split; [by destruct folder|]. split; [done|].
  apply safe_filename_no_slash. apply (bool_decide_unpack _). reflexivity.
Qed.

(** X11.  Two tracks of a playlist have the same file exactly when they
    have the same safe name; the safe name is made of the cleaned title and
    the cleaned artists, so that the album, and the characters the cleaning
    deletes, make no difference. *)
Theorem same_file_iff_same_safe_name (folder : Path) (t1 t2 : Track) :
  (output_path folder t1 = output_path folder t2
   ↔ _get_safe_filename t1 = _get_safe_filename t2)
  ∧ (re_sub_invalid (title t1) = re_sub_invalid (title t2) →
     re_sub_invalid (artists t1) = re_sub_invalid (artists t2) →
     output_path folder t1 = output_path folder t2).
Proof.
  split; [split|].
  - rewrite !output_path_parts. intros [= H].
    apply app_inv_head in H. injection H as H. by apply app_inv_tail in H.
  - unfold output_path. by intros ->.
  - intros Ht Ha. unfold output_path.
    by rewrite (safe_filename_split t1), (safe_filename_split t2), Ht, Ha.
Qed.

Lemma same_file_iff_same_safe_name_witness :
  output_path test_folder (mkTrack (py "AC/DC") (py "Live?") (py "One"))
  = output_path test_folder (mkTrack (py "ACDC") (py "Live") (py "Two")).
Proof.
  apply (same_file_iff_same_safe_name test_folder
           (mkTrack (py "AC/DC") (py "Live?") (py "One"))
           (mkTrack (py "ACDC") (py "Live") (py "Two"))); reflexivity.
Defined.

(** X12.  The output template of a track is the path of its file with the
    extension replaced by the placeholder: [with_suffix] never raises for
    it and only the final extension is replaced, also when the title or
    the artists hold dots. *)
Theorem output_template_keeps_base_name (folder : Path) (track : Track) :
  with_suffix (output_path folder track) (py ".%(ext)s")
  = Ok (mkPath (root folder)
          (parts folder ++ [_get_safe_filename track ++ py ".%(ext)s"]))
  ∧ output_template folder track
    = str (mkPath (root folder)
             (parts folder ++ [_get_safe_filename track ++ py ".%(ext)s"])).
Proof.
  split; [|apply output_template_parts].
  rewrite output_path_parts. apply with_suffix_mp3.
  by destruct (safe_filename_cons track) as (c & s & ->).
Qed.

(** ** The calls a run makes *)

Lemma uses_mono {A} (p : prog A) (ns nd ns' nd' : nat) :
  (ns ≤ ns')%nat → (nd ≤ nd')%nat → uses p ns nd → uses p ns' nd'.
Proof.
  revert ns nd ns' nd'.
  induction p as [a|m k IH|x k IH|x k IH|x k IH|k IH|u k IH|o u k IH];
    intros ns nd ns' nd' Hs Hd; simpl; eauto.
  - intros (n & -> & H). destruct ns' as [|n']; [lia|].
    exists n'. split; [done|]. intros r. eapply IH; [| |apply H]; lia.
  - intros (n & -> & H). destruct nd' as [|n']; [lia|].
    exists n'. split; [done|]. intros r. eapply IH; [| |apply H]; lia.
Qed.

Lemma uses_bind {A B} (p : prog A) (f : A → prog B) (a b c d : nat) :
  uses p a b → (∀ r, uses (f r) c d) → uses (bind p f) (a + c) (b + d).
Proof.
  revert a b.
  induction p as [x|m k IH|x k IH|x k IH|x k IH|k IH|u k IH|o u k IH];
    intros a b Hp Hf; simpl in *; eauto.
  - eapply uses_mono; [| |apply Hf]; lia.
  - destruct Hp as (n & -> & H). exists (n + c)%nat. split; [lia|]. eauto.
  - destruct Hp as (n & -> & H). exists (n + d)%nat. split; [lia|]. eauto.
Qed.

Lemma uses_bindM {A B} (m : M A) (f : A → M B) (a b c d : nat) :
  uses m a b → (∀ x, uses (f x) c d) → uses (bindM m f) (a + c) (b + d).
Proof.
  intros Hm Hf. apply uses_bind; [done|]. intros [x|e]; [apply Hf|done].
Qed.

Lemma uses_try_except {A} (body : M A) (handler : pystr → M A) (a b c d : nat) :
  uses body a b → (∀ e, uses (handler e) c d) →
  uses (try_except body handler) (a + c) (b + d).
Proof.
  intros Hm Hf. apply uses_bind; [done|]. intros [x|e]; [done|apply Hf].
Qed.

(** The resolver asks the search at most once and never downloads. *)
Lemma search_uses (track : Track) : uses (_search_and_get_url track) 1 0.
Proof.
  unfold _search_and_get_url.
  apply (uses_try_except _ _ 1 0 0 0).
  - apply (uses_bindM _ _ 0 0 1 0); [by intros r|]. intros _.
    apply (uses_bindM _ _ 1 0 0 0).
    + exists O. by split.
    + intros [[[[|video rest]|]]|]; try done.
      apply (uses_bindM _ _ 0 0 0 0); done.
  - intros e. by apply (uses_bindM _ _ 0 0 0 0).
Qed.

(** One track: at most one search and at most one download. *)
Lemma download_track_uses (track : Track) (folder : Path) :
  uses (_download_track track folder) 1 1.
Proof.
  unfold _download_track.
  apply (uses_try_except _ _ 1 1 0 0); [|done].
  apply (uses_bindM _ _ 0 0 1 1); [by intros r|]. intros [|]; [done|].
  apply (uses_bindM _ _ 1 0 0 1); [apply search_uses|].
  intros [[|c u]|]; try done.
  apply (uses_bindM _ _ 0 0 0 1); [done|]. intros tmpl.
  apply (uses_bindM _ _ 0 0 0 1); [by intros r|]. intros _.
  apply (uses_try_except _ _ 0 1 0 0); [|done].
  apply (uses_bindM _ _ 0 1 0 0); [|done].
  exists O. by split.
Qed.


Lemma sum_list_with_insert {A} (f : A → nat) (l : list A) (i : nat) (a b : A) :
  l !! i = Some a →
  (sum_list_with f (<[i:=b]> l) + f a = sum_list_with f l + f b)%nat.
Proof.
  revert i. induction l as [|x l IH]; intros [|i] H; simplify_eq/=; [lia|].
  specialize (IH _ H). lia.
Qed.

Lemma searches_snoc (tr : list event) (e : event) :
  searches (tr ++ [e]) = (searches tr + if is_search e then 1 else 0)%nat.
Proof.
  unfold searches. rewrite List.filter_app, length_app. simpl.
  by destruct (is_search e).
Qed.

Lemma downloads_snoc (tr : list event) (e : event) :
  downloads (tr ++ [e]) = (downloads tr + if is_download e then 1 else 0)%nat.
Proof.
  unfold downloads. rewrite List.filter_app, length_app. simpl.
  by destruct (is_download e).
Qed.

Section Budget.
Context {W : Type} (E : Env W) (folder : Path).

(** One call of an item moves a search or a download from what the item
    may still do to the trace. *)
Lemma step_prog_uses (p p' : M ()) (st st' : state W) (n : nat * nat) :
  uses p n.1 n.2 → step_prog E p st = Some (p', st') →
  ∃ n' : nat * nat, uses p' n'.1 n'.2
    ∧ (searches (trace st') + n'.1 = searches (trace st) + n.1)%nat
    ∧ (downloads (trace st') + n'.2 = downloads (trace st) + n.2)%nat.
Proof.
  destruct n as [a b]. cbn [fst snd]. intros Hp Hstep.
  destruct p as [x|m k|x k|x k|x k|k|u k|o u k]; simpl in Hp, Hstep.
  - done.
  - injection Hstep as <- <-. exists (a, b). simpl.
    rewrite searches_snoc, downloads_snoc. simpl. repeat split; [done|lia|lia].
  - injection Hstep as <- <-. exists (a, b). eauto.
  - injection Hstep as <- <-. exists (a, b). eauto.
  - destruct (env_mkdir E (world st) x) as [w r]. injection Hstep as <- <-.
    exists (a, b). simpl. rewrite searches_snoc, downloads_snoc. simpl.
    repeat split; [apply Hp|lia|lia].
  - injection Hstep as <- <-. exists (a, b). eauto.
  - destruct Hp as (a' & -> & Hk).
    destruct (env_extract_info E (world st) u) as [w r]. injection Hstep as <- <-.
    exists (a', b). simpl. rewrite searches_snoc, downloads_snoc. simpl.
    repeat split; [apply Hk|lia|lia].
  - destruct Hp as (b' & -> & Hk).
    destruct (env_download E (world st) o u) as [w r]. injection Hstep as <- <-.
    exists (a, b'). simpl. rewrite searches_snoc, downloads_snoc. simpl.
    repeat split; [apply Hk|lia|lia].
Qed.

Lemma within_budget_keep (ns nd : nat) (s s' : pool W) (m : move) :
  within_budget ns nd s → exec E folder m s = Some s' → within_budget ns nd s'.
Proof.
  intros (l & Hl & Hs & Hd) Hm. apply exec_moved in Hm.
  destruct Hm as [t ts Ht Hlen|t ts Ht Hlen|i t q Hw Hq|i t p p' st Hw Hp|i t r Hw];
    unfold within_budget; simpl.
  - exists (l ++ [(O, O)]). split; [|split].
    + apply Forall2_app; [done|]. by repeat constructor.
    + rewrite Ht in Hs. rewrite length_app, sum_list_with_app. simpl in *. lia.
    + rewrite Ht in Hd. rewrite length_app, sum_list_with_app. simpl in *. lia.
  - exists l. rewrite Ht in Hs, Hd. rewrite length_app. simpl in *.
    split; [done|]. split; lia.
  - destruct (Forall2_lookup_l _ _ _ _ _ Hl Hw) as (a & Ha & _).
    exists (<[i := (1%nat, 1%nat)]> l). split; [|split].
    + apply Forall2_insert; [done|]. apply download_track_uses.
    + pose proof (sum_list_with_insert fst l i a (1%nat, 1%nat) Ha).
      rewrite Hq in Hs. simpl in *. lia.
    + pose proof (sum_list_with_insert snd l i a (1%nat, 1%nat) Ha).
      rewrite Hq in Hd. simpl in *. lia.
  - destruct (Forall2_lookup_l _ _ _ _ _ Hl Hw) as (a & Ha & Hbusy).
    simpl in Hbusy.
    destruct (step_prog_uses _ _ _ _ _ Hbusy Hp) as (a' & Hp' & Hs' & Hd').
    exists (<[i := a']> l). split; [|split].
    + by apply Forall2_insert.
    + pose proof (sum_list_with_insert fst l i a a' Ha). lia.
    + pose proof (sum_list_with_insert snd l i a a' Ha). lia.
  - destruct (Forall2_lookup_l _ _ _ _ _ Hl Hw) as (a & Ha & _).
    exists (<[i := (O, O)]> l). split; [|split].
    + by apply Forall2_insert.
    + pose proof (sum_list_with_insert fst l i a (O, O) Ha). simpl in *. lia.
    + pose proof (sum_list_with_insert snd l i a (O, O) Ha). simpl in *. lia.
Qed.

(** X13.  Nothing is tried twice: at every point of a run of the pool over
    a playlist, the searches made so far are at most as many as the tracks
    of the playlist, and so are the downloads. *)
Theorem no_track_is_tried_twice (tracks : list Track) (st : state W) (s : pool W) :
  steps E folder (pool_init tracks st) s →
  (searches (trace (shared s)) ≤ searches (trace st) + length tracks)%nat
  ∧ (downloads (trace (shared s)) ≤ downloads (trace st) + length tracks)%nat.
Proof.
  intros Hs.
  assert (Hb : within_budget (searches (trace st) + length tracks)
                 (downloads (trace st) + length tracks) s).
  { revert s Hs. apply steps_invariant.
    - exists []. simpl. split; [constructor|]. split; lia.
    - intros s1 m s2. apply within_budget_keep. }
  destruct Hb as (l & _ & H1 & H2). split; lia.
Qed.
End Budget.

Lemma no_track_is_tried_twice_witness :
  let E := demo_env (Raise []) four_found [] in
  match play E test_folder five_schedule (pool_init five_tracks (mkState [] [])) with
  | Some s =>
      searches (trace (shared s)) = 5%nat ∧ downloads (trace (shared s)) = 4%nat
      ∧ (searches (trace (shared s)) ≤ 0 + 5)%nat
      ∧ (downloads (trace (shared s)) ≤ 0 + 5)%nat
  | None => False
  end.
Proof.
  intros E.
  destruct (play E test_folder five_schedule (pool_init five_tracks (mkState [] [])))
    as [s|] eqn:Hplay; [|by vm_compute in Hplay].
  pose proof (no_track_is_tried_twice E test_folder five_tracks (mkState [] []) s
                (play_steps E test_folder _ _ _ Hplay)) as [H1 H2].
  vm_compute in Hplay. injection Hplay as <-.
  split; [reflexivity|]. split; [reflexivity|]. split; [exact H1|exact H2].
Defined.

(** ** Every track is run once *)

Lemma running_insert (ws : list worker) (i : nat) (w w' : worker) :
  ws !! i = Some w →
  running ws = running (take i ws) ++ option_list (item w) ++ running (drop (S i) ws)
  ∧ running (<[i := w']> ws)
    = running (take i ws) ++ option_list (item w') ++ running (drop (S i) ws).
Proof.
  intros Hw. unfold running. split.
  - rewrite <- (take_drop_middle ws i w Hw) at 1.
    rewrite omap_app. simpl. by destruct w.
  - rewrite insert_take_drop by (by eapply lookup_lt_Some).
    rewrite omap_app. simpl. by destruct w'.
Qed.

Lemma running_idle (ws : list worker) :
  forallb is_idle ws = true → running ws = [].
Proof.
  induction ws as [|[|t p] ws IH]; simpl; try done.
Qed.

Section Once.
Context {W : Type} (E : Env W) (folder : Path).

Lemma tracks_kept (tracks : list Track) (st : state W) (s : pool W) :
  steps E folder (pool_init tracks st) s →
  (results s).*1 ++ running (workers s) ++ queue s ++ to_submit s ≡ₚ tracks.
Proof.
  apply (steps_invariant E folder (fun s =>
    (results s).*1 ++ running (workers s) ++ queue s ++ to_submit s ≡ₚ tracks)).
  - done.
  - intros s1 m s2 Hinv Hm. apply exec_moved in Hm.
    destruct Hm as [t ts Ht Hlen|t ts Ht Hlen|i t q Hw Hq|i t p p' st' Hw Hp|i t r Hw];
      simpl.
    + rewrite Ht in Hinv. unfold running. rewrite omap_app. simpl.
      rewrite app_nil_r. rewrite <- Hinv.
      rewrite <- (app_assoc (queue s1) [t] ts). done.
    + rewrite Ht in Hinv. rewrite <- Hinv.
      rewrite <- (app_assoc (queue s1) [t] ts). done.
    + destruct (running_insert (workers s1) i Idle
                  (Busy t (_download_track t folder)) Hw) as [H1 H2].
      rewrite Hq, H1 in Hinv. rewrite H2. rewrite <- Hinv. simpl.
      rewrite <- !app_assoc. simpl.
      apply Permutation_app_head, Permutation_app_head.
      first [apply Permutation_middle|symmetry; apply Permutation_middle].
    + destruct (running_insert (workers s1) i (Busy t p) (Busy t p') Hw) as [H1 H2].
      rewrite H1 in Hinv. by rewrite H2.
    + destruct (running_insert (workers s1) i (Busy t (Ret r)) Idle Hw) as [H1 H2].
      rewrite H1 in Hinv. rewrite H2. rewrite <- Hinv. simpl.
      rewrite fmap_app. simpl. rewrite <- !app_assoc. simpl.
      apply Permutation_app_head.
      first [apply Permutation_middle|symmetry; apply Permutation_middle].
Qed.

(** X14.  When the pool has run a playlist to the end, [gather] holds one
    result for each track: the tracks of the results are the tracks of the
    playlist, each as often as the playlist has it, and no track was run
    twice or left out. *)
Theorem every_track_is_run_once (tracks : list Track) (st : state W) (s : pool W) :
  steps E folder (pool_init tracks st) s → all_done s →
  (results s).*1 ≡ₚ tracks ∧ length (results s) = length tracks.
Proof.
  intros Hs (Hsub & Hq & Hidle).
  pose proof (tracks_kept tracks st s Hs) as H.
  rewrite Hsub, Hq, (running_idle _ Hidle), !app_nil_r in H.
  split; [done|]. rewrite <- H. by rewrite length_fmap.
Qed.
End Once.

Lemma every_track_is_run_once_witness :
  let E := demo_env (Raise []) four_found [] in
  match play E test_folder five_schedule (pool_init five_tracks (mkState [] [])) with
  | Some s =>
      (results s).*1
      = [song (py "3"); song (py "1"); song (py "2"); song (py "4"); song (py "5")]
      ∧ (results s).*1 ≡ₚ five_tracks ∧ length (results s) = length five_tracks
  | None => False
  end.
Proof.
  intros E.
  destruct (play E test_folder five_schedule (pool_init five_tracks (mkState [] [])))
    as [s|] eqn:Hplay; [|by vm_compute in Hplay].
  assert (Hdone : all_done s).
  { vm_compute in Hplay. injection Hplay as <-. by repeat split. }
  pose proof (every_track_is_run_once E test_folder five_tracks (mkState [] []) s
                (play_steps E test_folder _ _ _ Hplay) Hdone) as H.
  split; [|exact H].
  vm_compute in Hplay. injection Hplay as <-. reflexivity.
Defined.

(** ** The exporter *)

Lemma sanitize_char_clean (c : N) :
  (if decide (c ∈ INVALID_CHARS) then 45 else c) ∉ INVALID_CHARS.
Proof.
  case_decide; [|done]. apply (bool_decide_unpack _). reflexivity.
Qed.

Lemma invalid_chars_included (c : N) : c ∈ invalid_chars → c ∈ INVALID_CHARS.
Proof.
  unfold invalid_chars, INVALID_CHARS. rewrite !elem_of_cons, !elem_of_nil.
  tauto.
Qed.

(** X15.  [_sanitize_filename] gives a text of the same length in which
    none of the characters of its table is left, nor any of the characters
    the downloader deletes from file names; applied again it changes
    nothing. *)
Theorem sanitize_filename_clean (filename : pystr) :
  length (_sanitize_filename filename) = length filename
  ∧ Forall (fun c => c ∉ INVALID_CHARS) (_sanitize_filename filename)
  ∧ Forall (fun c => c ∉ invalid_chars) (_sanitize_filename filename)
  ∧ _sanitize_filename (_sanitize_filename filename) = _sanitize_filename filename
  ∧ re_sub_invalid (_sanitize_filename filename) = _sanitize_filename filename.
Proof.
  assert (Hclean : Forall (fun c => c ∉ INVALID_CHARS) (_sanitize_filename filename)).
  { unfold _sanitize_filename. apply Forall_fmap, Forall_forall.
    intros c _. apply sanitize_char_clean. }
  assert (Hclean' : Forall (fun c => c ∉ invalid_chars) (_sanitize_filename filename)).
  { eapply Forall_impl; [exact Hclean|].
    intros c Hc Hin. by apply Hc, invalid_chars_included. }
  split; [apply length_fmap|]. split; [done|]. split; [done|]. split.
  - revert Hclean. generalize (_sanitize_filename filename). intros s Hs.
    unfold _sanitize_filename. induction Hs as [|c s Hc _ IH]; [done|].
    cbn [fmap list_fmap]. rewrite decide_False by done. by f_equal.
  - revert Hclean'. generalize (_sanitize_filename filename). intros s Hs.
    unfold re_sub_invalid. induction Hs as [|c s Hc _ IH]; [done|].
    rewrite filter_cons_True by done. by f_equal.
Qed.

(** *** Reading back what was written *)

Lemma readlines_from_line (x rest cur : pystr) :
  no_newline x →
  readlines_from cur (x ++ nl ++ rest)
  = (reverse cur ++ x ++ nl) :: readlines_from [] rest.
Proof.
  intros [H10 H13]. revert cur. induction x as [|c x IH]; intros cur.
  - simpl. by rewrite reverse_cons.
  - apply not_elem_of_cons in H10 as [Hc10 H10].
    apply not_elem_of_cons in H13 as [Hc13 H13].
    change ((c :: x) ++ nl ++ rest) with (c :: (x ++ nl ++ rest)).
    cbn [readlines_from].
    destruct (c =? 10) eqn:E10; [apply N.eqb_eq in E10; congruence|].
    destruct (c =? 13) eqn:E13; [apply N.eqb_eq in E13; congruence|].
    rewrite IH by done. by rewrite reverse_cons, <- !app_assoc.
Qed.

Lemma no_newline_app (a b : pystr) :
  no_newline a → no_newline b → no_newline (a ++ b).
Proof.
  intros [Ha1 Ha2] [Hb1 Hb2]. split; rewrite elem_of_app; tauto.
Qed.

Lemma readlines_track_lines (tracks : list PlaylistTrack) :
  Forall plain_track tracks →
  readlines_text (mjoin ((fun t => PlaylistTrack_str t ++ nl) <$> tracks))
  = (fun t => PlaylistTrack_str t ++ nl) <$> tracks.
Proof.
  unfold readlines_text. induction 1 as [|t tracks Ht _ IH]; [done|].
  rewrite fmap_cons.
  change (mjoin (?x :: ?l)) with (x ++ mjoin l).
  rewrite <- app_assoc, readlines_from_line.
  - by rewrite IH.
  - destruct Ht as (_ & (H1 & H2 & H3) & _). unfold PlaylistTrack_str.
    repeat apply no_newline_app; try done;
      split; apply (bool_decide_unpack _); reflexivity.
Qed.

Lemma startswith_prefix (p s : pystr) : startswith (p ++ s) p = true.
Proof.
  induction p as [|c p IH]; [done|]. simpl. by rewrite N.eqb_refl, IH.
Qed.

Lemma replace_from_skip (old new a s : pystr) :
  replace_from old new (length a) (a ++ s) = replace_from old new O s.
Proof. induction a as [|c a IH]; [done|]. simpl. apply IH. Qed.

Lemma replace_from_absent (old new s : pystr) :
  contains old s = false → replace_from old new O s = s.
Proof.
  induction s as [|c s IH]; [done|]. simpl.
  intros [H1 H2]%orb_false_elim. simpl in H1. rewrite H1. f_equal. by apply IH.
Qed.

(** Taking out a prefix that does not come back gives the rest. *)
Lemma replace_prefix (old s : pystr) :
  old ≠ [] → contains old s = false → replace (old ++ s) old [] = s.
Proof.
  destruct old as [|c old]; [done|].
  intros _ Hs. unfold replace. cbn [replace_from app].
  change (c :: old ++ s) with ((c :: old) ++ s).
  rewrite startswith_prefix. cbn [length pred app].
  by rewrite replace_from_skip, replace_from_absent.
Qed.

Lemma to_Track_str (t : PlaylistTrack) :
  PlaylistTrack_str t = Track_str (to_Track t).
Proof. reflexivity. Qed.

Lemma plain_track_line (t : PlaylistTrack) :
  plain_track t → track_of_line (PlaylistTrack_str t ++ nl) = Some (to_Track t).
Proof.
  intros ((H1 & H2 & H3) & _ & H4 & H5 & H6 & H7).
  rewrite to_Track_str. by apply track_of_line_str.
Qed.

Lemma plain_track_lines (tracks : list PlaylistTrack) :
  Forall plain_track tracks →
  omap track_of_line ((fun t => PlaylistTrack_str t ++ nl) <$> tracks)
  = to_Track <$> tracks.
Proof.
  induction 1 as [|t tracks Ht _ IH]; [done|].
  cbn [fmap list_fmap omap list_omap]. rewrite plain_track_line by done.
  simpl. by f_equal.
Qed.

(** The first line of a written manifest gives the name back. *)
Lemma written_name_read_back (name : pystr) :
  lstrip name = name → rstrip name = name →
  contains (py "Playlist: ") name = false →
  (if startswith (strip (py "Playlist: " ++ name ++ nl)) (py "Playlist: ")
   then strip (replace (strip (py "Playlist: " ++ name ++ nl)) (py "Playlist: ") [])
   else [])
  = name.
Proof.
  intros Hl Hr Hc. destruct name as [|c name]; [reflexivity|].
  assert (Hs : strip (py "Playlist: " ++ (c :: name) ++ nl)
               = py "Playlist: " ++ c :: name).
  { pose proof (strip_line (py "Playlist: ") [] (c :: name)) as H.
    simpl app in H. apply H; done. }
  rewrite Hs, startswith_prefix.
  rewrite replace_prefix by done.
  unfold strip. by rewrite Hl, Hr.
Qed.

Lemma no_newline_py (s : string) :
  bool_decide (no_newline (py s)) = true → no_newline (py s).
Proof. apply bool_decide_eq_true_1. Qed.

Lemma no_newline_nil : no_newline [].
Proof. split; by intros ?%elem_of_nil. Qed.

Lemma readlines_labelled (label x rest : pystr) :
  no_newline label → no_newline x →
  readlines_text ((label ++ x ++ nl) ++ rest)
  = (label ++ x ++ nl) :: readlines_text rest.
Proof.
  intros Hl Hx. unfold readlines_text.
  replace ((label ++ x ++ nl) ++ rest) with ((label ++ x) ++ nl ++ rest)
    by (by rewrite <- !app_assoc).
  rewrite readlines_from_line by (by apply no_newline_app).
  by rewrite <- app_assoc.
Qed.

Lemma privacy_no_newline (public : option (option bool)) :
  no_newline (privacy public).
Proof.
  destruct public as [[[|]|]|]; split; apply (bool_decide_unpack _); reflexivity.
Qed.

(** The lines of a written manifest. *)
Lemma readlines_written (name owner : pystr) (public : option (option bool))
    (total : pystr) (parsed : list (option PlaylistTrack)) :
  no_newline name → no_newline owner → no_newline total →
  Forall plain_track (omap id parsed) →
  readlines_text (written_manifest name owner public total parsed)
  = [py "Playlist: " ++ name ++ nl; py "Owner: " ++ owner ++ nl;
     py "Privacy: " ++ privacy public ++ nl; py "Tracks: " ++ total ++ nl; nl;
     py "=== Tracks ===" ++ nl; nl]
    ++ ((fun t => PlaylistTrack_str t ++ nl) <$> omap id parsed).
Proof.
  intros Hn Ho Ht Htracks. unfold written_manifest.
  assert (Hlit : ∀ s, bool_decide (no_newline (py s)) = true → no_newline (py s))
    by (intros s; apply bool_decide_eq_true_1).
  rewrite readlines_labelled; [|by apply Hlit|done].
  rewrite readlines_labelled; [|by apply Hlit|done].
  rewrite readlines_labelled; [|by apply Hlit|apply privacy_no_newline].
  replace ((py "Tracks: " ++ total ++ nl ++ nl)
           ++ (py "=== Tracks ===" ++ nl ++ nl)
           ++ mjoin ((fun t => PlaylistTrack_str t ++ nl) <$> omap id parsed))
    with ((py "Tracks: " ++ total ++ nl)
          ++ (([] ++ [] ++ nl)
          ++ ((py "=== Tracks ===" ++ [] ++ nl)
          ++ (([] ++ [] ++ nl)
          ++ mjoin ((fun t => PlaylistTrack_str t ++ nl) <$> omap id parsed)))))
    by (simpl; by rewrite <- !app_assoc).
  rewrite readlines_labelled; [|by apply Hlit|done].
  rewrite readlines_labelled; [|apply no_newline_nil|apply no_newline_nil].
  rewrite readlines_labelled; [|by apply Hlit|apply no_newline_nil].
  rewrite readlines_labelled; [|apply no_newline_nil|apply no_newline_nil].
  rewrite readlines_track_lines by done.
  reflexivity.
Qed.

(** X16.  What the exporter writes the downloader reads: the manifest
    [_export_playlist] writes for a playlist is parsed by [_parse_txt_file]
    into the name of the playlist and its tracks, in order.  This holds
    when the name has no whitespace at its ends and does not hold the
    playlist prefix, no text holds a line end, and every track is plain:
    no hyphen in a field, a title that is not empty and does not start
    with whitespace, an album that is not empty and does not end with
    whitespace.  The two lines between the header and the tracks are read
    as lines without a track. *)
Theorem exported_manifest_is_read_back {W} (E : Env W) (txt_file : Path)
    (s : state W) (name owner : pystr) (public : option (option bool))
    (total : pystr) (parsed : list (option PlaylistTrack)) :
  lstrip name = name → rstrip name = name →
  contains (py "Playlist: ") name = false →
  no_newline name → no_newline owner → no_newline total →
  Forall plain_track (omap id parsed) →
  env_readlines E (world s) txt_file
  = Ok (readlines_text (written_manifest name owner public total parsed)) →
  interp E (_parse_txt_file txt_file) s
  = (Ok (name, to_Track <$> omap id parsed), s).
Proof.
  intros Hl Hr Hc Hn Ho Ht Htracks Hread.
  rewrite readlines_written in Hread by done.
  rewrite (parse_txt_file_ok E _ _ _ _ Hread).
  rewrite written_name_read_back by done.
  cbn [drop app]. cbn [omap list_omap].
  change (track_of_line (py "=== Tracks ===" ++ nl)) with (@None Track).
  change (track_of_line nl) with (@None Track).
  cbn iota. by rewrite plain_track_lines.
Qed.

Lemma exported_manifest_is_read_back_witness :
  let parsed := [Some (mkPlaylistTrack (py "Mr. Brightside") (py "The Killers")
                         (py "Hot Fuss"));
                 None;
                 Some (mkPlaylistTrack (py "Song 2") (py "Blur, Friends")
                         (py "Blur"))] in
  let text := written_manifest (py "Road trip") (py "Ann") (Some None) (py "3")
                parsed in
  let E := demo_env (Ok (readlines_text text)) [] [] in
  interp E (_parse_txt_file (mkPath [] [py "txt"; py "Road trip.txt"]))
         (mkState [] [])
  = (Ok (py "Road trip",
         [mkTrack (py "Mr. Brightside") (py "The Killers") (py "Hot Fuss");
          mkTrack (py "Song 2") (py "Blur, Friends") (py "Blur")]),
     mkState [] []).
Proof.
  intros parsed text E.
  apply (exported_manifest_is_read_back E _ (mkState [] []) (py "Road trip")
           (py "Ann") (Some None) (py "3") parsed);
    try reflexivity;
    try (split; apply (bool_decide_unpack _); reflexivity).
  repeat constructor; try done;
    try (apply (bool_decide_unpack _); reflexivity).
Defined.

(** *** The pages of a playlist *)

Section Pages.
Context {A : Type} (playlist_tracks : nat → Result (page A)) (its : nat → list A).

Lemma get_all_loop_pages (d : nat) :
  ∀ (j fuel : nat) (acc : list A),
    (∀ i, (j ≤ i < j + d)%nat → full_page playlist_tracks its i) →
    get_all_loop playlist_tracks (d + fuel) (100 * j) acc
    = get_all_loop playlist_tracks fuel (100 * (j + d))
        (acc ++ mjoin (its <$> seq j d)).
Proof.
  induction d as [|d IH]; intros j fuel acc Hfull.
  - change (mjoin (its <$> seq j 0)) with (@nil A).
    by rewrite Nat.add_0_r, app_nil_r.
  - destruct (Hfull j ltac:(lia)) as (c & n & Hj).
    cbn [Nat.add get_all_loop]. rewrite Hj. cbn [page_items page_next].
    replace (100 * j + 100)%nat with (100 * S j)%nat by lia.
    rewrite IH by (intros i Hi; apply Hfull; lia).
    replace (S j + d)%nat with (j + S d)%nat by lia.
    cbn [seq fmap list_fmap]. 
    change (mjoin (its j :: ?l)) with (its j ++ mjoin l).
    by rewrite <- app_assoc.
Qed.

(** X17.  [_get_all_playlist_tracks] returns the items of all pages, in
    order: when the pages at the offsets 0, 100, ... name a next page up to
    a page that names none, it asks for exactly these pages and returns
    their items one after the other. *)
Theorem all_pages_are_collected (k fuel : nat) (last_next : option pystr) :
  (∀ i, (i < k)%nat → full_page playlist_tracks its i) →
  playlist_tracks (100 * k)%nat = Ok (mkPage (Some (its k)) last_next) →
  match last_next with Some (_ :: _) => False | _ => True end →
  (k < fuel)%nat →
  _get_all_playlist_tracks playlist_tracks fuel
  = Some (Ok (mjoin (its <$> seq 0 (S k)))).
Proof.
  intros Hfull Hlast Hnone Hfuel. unfold _get_all_playlist_tracks.
  replace fuel with (k + S (fuel - S k))%nat by lia.
  change 0%nat with (100 * 0)%nat at 1.
  rewrite get_all_loop_pages by (intros i Hi; apply Hfull; lia).
  cbn [Nat.add get_all_loop app]. rewrite Hlast. cbn [page_items page_next].
  replace (seq 0 (S k)) with (seq 0 k ++ [k]) by (by rewrite seq_S).
  rewrite fmap_app, join_app. simpl. rewrite app_nil_r.
  by destruct last_next as [[|c n]|].
Qed.

(** X18.  When the request for a page raises, [_get_all_playlist_tracks]
    raises the same exception: the items of the pages before are not
    returned. *)
Theorem failed_page_fails_the_whole (k fuel : nat) (e : pystr) :
  (∀ i, (i < k)%nat → full_page playlist_tracks its i) →
  playlist_tracks (100 * k)%nat = Raise e →
  (k < fuel)%nat →
  _get_all_playlist_tracks playlist_tracks fuel = Some (Raise e).
Proof.
  intros Hfull Hlast Hfuel. unfold _get_all_playlist_tracks.
  replace fuel with (k + S (fuel - S k))%nat by lia.
  change 0%nat with (100 * 0)%nat at 1.
  rewrite get_all_loop_pages by (intros i Hi; apply Hfull; lia).
  cbn [Nat.add get_all_loop]. by rewrite Hlast.
Qed.

(** X19.  The loop has no bound of its own: as long as every page names a
    next page it goes on asking, whatever the number of requests allowed. *)
Theorem endless_pages_never_return (fuel : nat) :
  (∀ i, full_page playlist_tracks its i) →
  _get_all_playlist_tracks playlist_tracks fuel = None.
Proof.
  intros Hfull. unfold _get_all_playlist_tracks.
  replace fuel with (fuel + 0)%nat by lia.
  change 0%nat with (100 * 0)%nat at 2.
  by rewrite get_all_loop_pages.
Qed.
End Pages.

Lemma all_pages_are_collected_witness :
  _get_all_playlist_tracks three_pages 5 = Some (Ok [1; 2; 3; 4; 5]%nat).
Proof.
  apply (all_pages_are_collected three_pages
           (fun i => match i with 0 => [1; 2] | 1 => [3] | _ => [4; 5] end%nat)
           2 5 None).
  - intros [|[|i]] Hi; [by eexists _, _..|lia].
  - reflexivity.
  - exact I.
  - lia.
Defined.

Lemma failed_page_fails_the_whole_witness :
  _get_all_playlist_tracks three_pages_then_error 5
  = Some (Raise (py "timed out")).
Proof.
  apply (failed_page_fails_the_whole three_pages_then_error
           (fun i => match i with 0 => [1; 2] | _ => [3] end%nat) 2 5).
  - intros [|[|i]] Hi; [by eexists _, _..|lia].
  - reflexivity.
  - lia.
Defined.

Lemma endless_pages_never_return_witness :
  _get_all_playlist_tracks
    (fun _ => Ok (mkPage (Some [7%nat]) (Some (py "next")))) 1000 = None.
Proof.
  apply (endless_pages_never_return _ (fun _ => [7%nat]) 1000).
  intros i. by eexists _, _.
Defined.

(** *** The user of the address *)

Lemma split_from_nonempty (sep : pystr) (s : pystr) :
  ∀ skip cur, split_from sep skip cur s ≠ [].
Proof.
  induction s as [|c s IH]; intros skip cur; simpl; [done|].
  destruct skip; [|apply IH]. destruct (startswith _ _); [done|apply IH].
Qed.

Lemma last_cons_nonempty {A} (x : A) (l : list A) : l ≠ [] → last (x :: l) = last l.
Proof. by destruct l. Qed.

(** The last segment of a text is what follows its last slash. *)
Lemma last_split_slash (p id : pystr) :
  slash ∉ id →
  ∀ cur, last (split_from [slash] O cur (p ++ slash :: id)) = Some id.
Proof.
  intros Hid. induction p as [|c p IH]; intros cur.
  - cbn [app split_from startswith]. rewrite N.eqb_refl. cbn [andb length pred].
    rewrite last_cons_nonempty by apply split_from_nonempty.
    by rewrite (split_from_no_sep slash id Hid).
  - change ((c :: p) ++ slash :: id) with (c :: (p ++ slash :: id)).
    cbn [split_from startswith]. destruct (c =? slash); cbn [andb length pred].
    + rewrite last_cons_nonempty by apply split_from_nonempty. apply IH.
    + apply IH.
Qed.

(** X20.  The user is what follows the last slash of the path of the
    address; when nothing follows it, as for an address that ends with a
    slash, [_validate_user_url] raises instead of returning an empty
    user. *)
Theorem user_id_is_last_segment (urlparse_path : pystr → pystr)
    (c : N) (u p id : pystr) :
  urlparse_path (c :: u) = p ++ slash :: id → slash ∉ id →
  _validate_user_url urlparse_path (Some (c :: u))
  = match id with
    | [] => Raise (py "URL utente non valido")
    | _ :: _ => Ok id
    end.
Proof.
  intros Hpath Hid. unfold _validate_user_url, split.
  rewrite Hpath, last_split_slash by done. by destruct id.
Qed.

Lemma user_id_is_last_segment_witness :
  let path := fun url : pystr => drop 24 url in
  _validate_user_url path (Some (py "https://open.spotify.com/user/ann")) = Ok (py "ann")
  ∧ _validate_user_url path (Some (py "https://open.spotify.com/user/ann/"))
    = Raise (py "URL utente non valido").
Proof.
  intros path. split.
  - apply (user_id_is_last_segment path 104 (py "ttps://open.spotify.com/user/ann")
             (py "/user") (py "ann")); [reflexivity|].
    apply (bool_decide_unpack _). reflexivity.
  - apply (user_id_is_last_segment path 104 (py "ttps://open.spotify.com/user/ann/")
             (py "/user/ann") []); [reflexivity|].
    apply (bool_decide_unpack _). reflexivity.
Defined.

(** ** The answer of the resolver *)

Lemma video_url_of_nonempty (video : entry) (u : pystr) :
  video_url_of video = Ok u → u ≠ [].
Proof.
  unfold video_url_of.
  destruct (entry_url video) as [[|c url]|]; destruct (entry_id video) as [i|];
    intros [= <-]; done.
Qed.

(** X21.  [_search_and_get_url] never raises, and a locator it returns is
    never the empty text: an entry without [url], or with an empty one,
    gives the watch address of its [id], and an entry with neither gives
    [None]. *)
Theorem resolver_answer_is_usable {W} (E : Env W) (track : Track) (s : state W) :
  ∃ r, (interp E (_search_and_get_url track) s).1 = Ok r ∧ r ≠ Some [].
Proof.
  pose proof (search_and_get_url_run E track s) as H. cbn zeta in H.
  destruct (env_YoutubeDL E (world s)) as [[]|e]; [|rewrite H; by eexists].
  destruct (env_extract_info E (world s) _) as [w r].
  destruct r as [[[[[|video rest]|]]|]|e]; try (rewrite H; by eexists).
  destruct (video_url_of video) as [u|e] eqn:Hu; rewrite H; [|by eexists].
  exists (Some u). split; [done|]. intros [= ->].
  by apply video_url_of_nonempty in Hu.
Qed.
